(** * The InfluxDB output of gnmic: a shallow embedding

    Source: [outputs/influxdb_output/influxdb_output.go].

    The output owns two broadcast signals ([reset], [startSig]), each a
    [chan struct{}] that is only ever closed and then replaced, a flag
    [wasup], and an unbuffered event channel.  Three kinds of goroutines
    run against it: the health monitor ([healthCheck]/[health]), the
    writer workers ([worker]) and the callers of [Write].

    Goroutines are embedded as transition functions between their
    blocking points.  What the Go runtime and the external collaborators
    decide (which ready [select] case is taken, what a health probe
    returns, what the converter returns) is an explicit input. *)

From stdpp Require Import base option list gmap strings.
From Stdlib Require Import ZArith Lia.

(** ** Channels used as one-shot broadcast signals *)

Module Chan.

(** Ghost annotation: the field of the output a channel was made for. *)
Inductive role := Reset | StartSig.

Record t := { role_of : role; closed : bool }.

(** The channels allocated so far; a channel value is an index. *)
Abbreviation heap := (list t).

Definition open_chan (r : role) : t := {| role_of := r; closed := false |}.

(** [make(chan struct{})]: a channel that did not exist before. *)
Definition make (r : role) (h : heap) : nat * heap :=
  (length h, h ++ [open_chan r]).

Definition shut (ch : t) : t := {| role_of := role_of ch; closed := true |}.

(** [close(c)]: Go panics when [c] is nil or already closed. *)
Definition close (c : nat) (h : heap) : option heap :=
  match h !! c with
  | Some ch => if closed ch then None else Some (<[c := shut ch]> h)
  | None => None
  end.

(** A receive [<-c] on a [chan struct{}] nobody sends on is ready
    exactly when [c] has been closed. *)
Definition is_closed (c : nat) (h : heap) : bool :=
  match h !! c with
  | Some ch => closed ch
  | None => false
  end.

Definition role_eqb (r1 r2 : role) : bool :=
  match r1, r2 with
  | Reset, Reset | StartSig, StartSig => true
  | _, _ => false
  end.

Definition is_live (r : role) (ch : t) : bool :=
  role_eqb (role_of ch) r && negb (closed ch).

Definition is_fired (r : role) (ch : t) : bool :=
  role_eqb (role_of ch) r && closed ch.

(** Number of unfired signals of one role, and of fired ones. *)
Definition live (r : role) (h : heap) : nat :=
  length (List.filter (is_live r) h).

Definition fired (r : role) (h : heap) : nat :=
  length (List.filter (is_fired r) h).

End Chan.

(** ** Configuration and constants *)

(** [time.Duration]: a count of nanoseconds. *)
Definition Duration := Z.
Definition Millisecond : Duration := 1000000%Z.
Definition Second : Duration := 1000000000%Z.

Definition defaultURL : string := "http://localhost:8086".
Definition defaultBatchSize : N := 1000%N.
Definition defaultFlushTimer : Duration := (10 * Second)%Z.
Definition defaultHealthCheckPeriod : Duration := (30 * Second)%Z.
Definition numWorkers : nat := 1.

Record Config := {
  URL : string;
  Org : string;
  Bucket : string;
  Token : string;
  BatchSize : N;
  FlushTimer : Duration;
  UseGzip : bool;
  EnableTLS : bool;
  HealthCheckPeriod : Duration;
  Debug : bool
}.

(** [&Config{}] as built by the registered factory. *)
Definition zeroConfig : Config :=
  {| URL := ""; Org := ""; Bucket := ""; Token := ""; BatchSize := 0%N;
     FlushTimer := 0%Z; UseGzip := false; EnableTLS := false;
     HealthCheckPeriod := 0%Z; Debug := false |}.

(** The four [if ... == zero] assignments of [Init], in source order. *)
Definition withDefaults (c : Config) : Config :=
  {| URL := if String.eqb (URL c) "" then defaultURL else URL c;
     Org := Org c;
     Bucket := Bucket c;
     Token := Token c;
     BatchSize := if N.eqb (BatchSize c) 0 then defaultBatchSize else BatchSize c;
     FlushTimer := if Z.eqb (FlushTimer c) 0 then defaultFlushTimer else FlushTimer c;
     UseGzip := UseGzip c;
     EnableTLS := EnableTLS c;
     HealthCheckPeriod :=
       if Z.eqb (HealthCheckPeriod c) 0 then defaultHealthCheckPeriod
       else HealthCheckPeriod c;
     Debug := Debug c |}.

(** What [Init] hands to [influxdb2.DefaultOptions()]: only the settings
    it touches; [None] leaves the library's own default. *)
Record Options := {
  opt_UseGZip : bool;
  opt_BatchSize : N;
  opt_FlushInterval : Z;
  opt_InsecureSkipVerify : option bool;
  opt_LogLevel : option Z
}.

(** [uint(d.Milliseconds())]: truncating division, then the conversion of
    an int64 to a 64-bit unsigned. *)
Definition flushIntervalMs (d : Duration) : Z :=
  ((d ÷ Millisecond) mod 2 ^ 64)%Z.

Definition clientOptions (c : Config) : Options :=
  {| opt_UseGZip := UseGzip c;
     opt_BatchSize := BatchSize c;
     opt_FlushInterval := flushIntervalMs (FlushTimer c);
     opt_InsecureSkipVerify := if EnableTLS c then Some true else None;
     opt_LogLevel := if Debug c then Some 3%Z else None |}.

Record Client := { cl_url : string; cl_token : string; cl_opts : Options }.

Definition NewClientWithOptions (url token : string) (o : Options) : Client :=
  {| cl_url := url; cl_token := token; cl_opts := o |}.

(** ** The output and the memory it points into *)

Definition error := string.

Record InfluxDBOutput := {
  Cfg : Config;
  client : option Client;
  reset : nat;
  startSig : nat;
  wasup : bool
}.

Record state := { out : InfluxDBOutput; chans : Chan.heap }.

(** The value built by the factory registered in [init()]. *)
Definition newOutput : state :=
  {| out := {| Cfg := zeroConfig; client := None;
               reset := 0; startSig := 1; wasup := false |};
     chans := [Chan.open_chan Chan.Reset; Chan.open_chan Chan.StartSig] |}.

Definition set_Cfg (c : Config) (i : InfluxDBOutput) : InfluxDBOutput :=
  {| Cfg := c; client := client i; reset := reset i;
     startSig := startSig i; wasup := wasup i |}.
Definition set_client (c : Client) (i : InfluxDBOutput) : InfluxDBOutput :=
  {| Cfg := Cfg i; client := Some c; reset := reset i;
     startSig := startSig i; wasup := wasup i |}.
Definition set_reset (c : nat) (i : InfluxDBOutput) : InfluxDBOutput :=
  {| Cfg := Cfg i; client := client i; reset := c;
     startSig := startSig i; wasup := wasup i |}.
Definition set_startSig (c : nat) (i : InfluxDBOutput) : InfluxDBOutput :=
  {| Cfg := Cfg i; client := client i; reset := reset i;
     startSig := c; wasup := wasup i |}.
Definition set_wasup (b : bool) (i : InfluxDBOutput) : InfluxDBOutput :=
  {| Cfg := Cfg i; client := client i; reset := reset i;
     startSig := startSig i; wasup := b |}.

Definition on_out (f : InfluxDBOutput → InfluxDBOutput) (σ : state) : state :=
  {| out := f (out σ); chans := chans σ |}.

(** ** The health monitor *)

(** The statements of [health] that touch shared state. *)
Inductive stmt :=
| CloseReset      (* close(i.reset) *)
| MakeReset       (* i.reset = make(chan struct{}) *)
| SetWasup        (* i.wasup = true *)
| CloseStartSig   (* close(i.startSig) *)
| MakeStartSig.   (* i.startSig = make(chan struct{}) *)

(** One statement; [None] is a run-time panic. *)
Definition exec (s : stmt) (σ : state) : option state :=
  match s with
  | CloseReset =>
      h ← Chan.close (reset (out σ)) (chans σ);
      Some {| out := out σ; chans := h |}
  | MakeReset =>
      let '(c, h) := Chan.make Chan.Reset (chans σ) in
      Some {| out := set_reset c (out σ); chans := h |}
  | SetWasup => Some (on_out (set_wasup true) σ)
  | CloseStartSig =>
      h ← Chan.close (startSig (out σ)) (chans σ);
      Some {| out := out σ; chans := h |}
  | MakeStartSig =>
      let '(c, h) := Chan.make Chan.StartSig (chans σ) in
      Some {| out := set_startSig c (out σ); chans := h |}
  end.

Fixpoint exec_all (ss : list stmt) (σ : state) : option state :=
  match ss with
  | [] => Some σ
  | s :: ss' => σ' ← exec s σ; exec_all ss' σ'
  end.

(** What [i.client.Health(ctx)] followed by [json.Marshal(res)] can give. *)
Inductive HealthOutcome :=
| ProbeFailed (err : error)          (* err != nil *)
| Report (marshal : option error)    (* res != nil; Some e: Marshal failed *)
| NoReport.                          (* res == nil and err == nil *)

(** The path [health] takes: its statements on shared state and the
    error it returns.  The guard [if i.wasup] is read on entry. *)
Definition health_body (up : bool) (o : HealthOutcome) : list stmt * option error :=
  match o with
  | ProbeFailed err =>
      (if up then [CloseReset; MakeReset] else [], Some err)
  | Report (Some err) =>
      (if up then [CloseReset; MakeReset] else [], Some err)
  | Report None =>
      ([SetWasup; CloseStartSig; MakeStartSig], None)
  | NoReport =>
      ([SetWasup; CloseStartSig; MakeStartSig], None)
  end.

Definition health (σ : state) (o : HealthOutcome) : option (state * option error) :=
  let '(ss, err) := health_body (wasup (out σ)) o in
  σ' ← exec_all ss σ; Some (σ', err).

(** [healthCheck]: a [select] between the ticker and [ctx.Done()]. *)
Inductive monitor_event :=
| Tick (o : HealthOutcome)
| MonitorCancelled.

(** Runs the loop over the events the runtime delivers; the boolean
    tells whether the goroutine has returned. *)
Fixpoint healthCheck (evs : list monitor_event) (σ : state) : option (state * bool) :=
  match evs with
  | [] => Some (σ, false)
  | Tick o :: evs' => r ← health σ o; healthCheck evs' r.1
  | MonitorCancelled :: _ => Some (σ, true)
  end.

(** The successive calls of [health], whoever makes them: the retry loop
    of [Init] first, [healthCheck] afterwards. *)
Fixpoint health_seq (hist : list HealthOutcome) (σ : state) : option state :=
  match hist with
  | [] => Some σ
  | o :: hist' => r ← health σ o; health_seq hist' r.1
  end.

(** ** Initialisation *)

(** What [Init] does besides updating the output, in program order. *)
Inductive init_effect :=
| NewClient (c : Client)         (* influxdb2.NewClientWithOptions(...) *)
| Sleep (d : Duration)           (* time.Sleep(d) *)
| GoHealthCheck                  (* go i.healthCheck(ctx) *)
| GoWorker (k : nat)             (* go i.worker(ctx, k) *)
| GoCloser.                      (* go func() { <-ctx.Done(); i.Close() }() *)

Inductive init_status :=
| InitReturned (err : option error)
| InitRetrying                   (* back at CRCLIENT, the next probe pending *)
| InitPanicked.

(** The retry loop at label [CRCLIENT], driven by the outcomes of the
    successive probes. *)
Fixpoint CRCLIENT (probes : list HealthOutcome) (iopts : Options) (σ : state)
  : state * list init_effect * init_status :=
  match probes with
  | [] => (σ, [], InitRetrying)
  | o :: probes' =>
      let c := NewClientWithOptions (URL (Cfg (out σ))) (Token (Cfg (out σ))) iopts in
      let σ1 := on_out (set_client c) σ in
      match health σ1 o with
      | None => (σ1, [NewClient c], InitPanicked)
      | Some (σ2, Some _) =>
          let '(σ3, tr, st) := CRCLIENT probes' iopts σ2 in
          (σ3, NewClient c :: Sleep (10 * Second)%Z :: tr, st)
      | Some (σ2, None) =>
          (on_out (set_wasup true) σ2,
           [NewClient c; GoHealthCheck]
             ++ (GoWorker <$> seq 0 numWorkers) ++ [GoCloser],
           InitReturned None)
      end
  end.

(** [Init].  [decoded] is what [outputs.DecodeConfig(cfg, i.Cfg)] leaves in
    [*i.Cfg] together with the error it returns.  The options applied
    first install the logger; logging is left out throughout, the
    logger being set whenever the output is in use. *)
Definition Init (decoded : Config * option error) (probes : list HealthOutcome)
    (σ : state) : state * list init_effect * init_status :=
  let σ0 := on_out (set_Cfg decoded.1) σ in
  match decoded.2 with
  | Some err => (σ0, [], InitReturned (Some err))
  | None =>
      let σ1 := on_out (set_Cfg (withDefaults (Cfg (out σ0)))) σ0 in
      CRCLIENT probes (clientOptions (Cfg (out σ1))) σ1
  end.

(** ** Events and points *)

(** Modelled from the spec: the scalar values an update event carries
    (the type of the values is declared outside the source file). *)
Inductive scalar :=
| SInt (z : Z)
| SString (s : string)
| SBool (b : bool).

(** Modelled from the spec: [collector.EventMsg] is declared outside the
    source file; the spec gives an update event a name, a tag mapping
    string to string, a value mapping string to scalar and an int64
    timestamp in unix nanoseconds.  The worker reads the four fields
    [Name], [Tags], [Values] and [Timestamp]. *)
Record EventMsg := {
  Name : string;
  Timestamp : Z;
  Tags : gmap string string;
  Values : gmap string scalar
}.

Definition int64 (z : Z) : Prop := (- 2 ^ 63 ≤ z < 2 ^ 63)%Z.
Definition wrap64 (z : Z) : Z := ((z + 2 ^ 63) mod 2 ^ 64 - 2 ^ 63)%Z.

Module Time.

(** A [time.Time] as seconds and nanoseconds since the unix epoch. *)
Record t := { sec : Z; nsec : Z }.

(** [time.Unix(sec, nsec)] of the Go standard library: [nsec] outside
    [0, 999999999] is carried into the seconds; int64 arithmetic. *)
Definition Unix (s n : Z) : t :=
  if ((n <? 0) || (1000000000 <=? n))%Z then
    let q := (n ÷ 1000000000)%Z in
    let s1 := wrap64 (s + q) in
    let n1 := wrap64 (n - wrap64 (q * 1000000000)) in
    if (n1 <? 0)%Z
    then {| sec := wrap64 (s1 - 1); nsec := wrap64 (n1 + 1000000000) |}
    else {| sec := s1; nsec := n1 |}
  else {| sec := s; nsec := n |}.

(** [t.UnixNano()]. *)
Definition UnixNano (x : t) : Z := wrap64 (wrap64 (sec x * 1000000000) + nsec x).

End Time.

(** A point as [influxdb2.NewPoint] receives it: the constructor belongs
    to the client library, so a point is the four arguments of the call. *)
Record Point := {
  measurement : string;
  tags : gmap string string;
  fields : gmap string scalar;
  time : Time.t
}.

Definition NewPoint (m : string) (tg : gmap string string)
    (fl : gmap string scalar) (ts : Time.t) : Point :=
  {| measurement := m; tags := tg; fields := fl; time := ts |}.

(** ** Write *)

(** A [proto.Message] interface value, by its dynamic type. *)
Inductive Message (R : Type) :=
| NilMessage                        (* rsp == nil *)
| SubscribeResponseMsg (rsp : R)    (* *gnmi.SubscribeResponse *)
| OtherMessage.                     (* any other proto message *)
Arguments NilMessage {R}.
Arguments SubscribeResponseMsg {R} rsp.
Arguments OtherMessage {R}.

Inductive write_label :=
| Converted (measName : string)   (* collector.ResponseToEventMsgs(measName, ...) *)
| ConvertFailed (err : error)     (* the failure is logged *)
| Enqueued (ev : EventMsg).       (* i.eventChan <- ev went through *)

(** Where a call of [Write] stands: blocked in the [select] for [ev] with
    [i.reset] evaluated to [c], or returned. *)
Inductive write_pc :=
| WriteSelect (c : nat) (ev : EventMsg) (rest : list EventMsg)
| WriteReturned.

Inductive write_case :=
| WriteCtxDone        (* case <-ctx.Done() *)
| WriteResetFired     (* case <-i.reset *)
| WriteSent.          (* case i.eventChan <- ev *)

(** One round of [for _, ev := range events]: enter the [select] for the
    next event, or fall out of the loop. *)
Definition range_events (σ : state) (events : list EventMsg) : write_pc :=
  match events with
  | [] => WriteReturned
  | ev :: rest => WriteSelect (reset (out σ)) ev rest
  end.

Section Write.

(** [gnmi.SubscribeResponse] and the converter of the collector package
    are collaborators outside the source file. *)
Variable SubscribeResponse : Type.
Variable ResponseToEventMsgs :
  string → SubscribeResponse → gmap string string → error + list EventMsg.

(** From the call of [Write] to its first blocking point. *)
Definition Write_call (σ : state) (rsp : Message SubscribeResponse)
    (meta : gmap string string) : state * write_pc * list write_label :=
  match rsp with
  | NilMessage => (σ, WriteReturned, [])
  | SubscribeResponseMsg rsp =>
      let measName :=
        match meta !! "subscription-name" with
        | Some subName => subName
        | None => "default"
        end in
      match ResponseToEventMsgs measName rsp meta with
      | inl err => (σ, WriteReturned, [Converted measName; ConvertFailed err])
      | inr events => (σ, range_events σ events, [Converted measName])
      end
  | OtherMessage => (σ, WriteReturned, [])
  end.

End Write.
Arguments Write_call {SubscribeResponse} ResponseToEventMsgs σ rsp meta.

(** The [select] of [Write] resolving with case [k].  A case can be taken
    only when it is ready: the caller's context is done, the channel read
    from [i.reset] on entry is closed, or a worker is receiving. *)
Definition Write_select (σ : state) (ctx_done receiver : bool)
    (k : write_case) (pc : write_pc) : option (state * write_pc * list write_label) :=
  match pc with
  | WriteReturned => None
  | WriteSelect c ev rest =>
      match k with
      | WriteCtxDone =>
          if ctx_done then Some (σ, WriteReturned, []) else None
      | WriteResetFired =>
          if Chan.is_closed c (chans σ) then Some (σ, WriteReturned, []) else None
      | WriteSent =>
          if receiver then Some (σ, range_events σ rest, [Enqueued ev]) else None
      end
  end.

(** One scheduling turn of a blocked [Write]: the shared state as the
    other goroutines left it, what is ready, and the runtime's pick. *)
Record write_turn := {
  wt_state : state;
  wt_ctx_done : bool;
  wt_receiver : bool;
  wt_pick : write_case
}.

(** The rest of a call of [Write] under a schedule; a turn whose pick is
    not ready leaves the call blocked. *)
Fixpoint Write_run (sched : list write_turn) (pc : write_pc)
  : write_pc * list write_label :=
  match sched with
  | [] => (pc, [])
  | t :: sched' =>
      match Write_select (wt_state t) (wt_ctx_done t) (wt_receiver t) (wt_pick t) pc with
      | None => Write_run sched' pc
      | Some (_, pc', l) =>
          let '(pc'', l') := Write_run sched' pc' in (pc'', l ++ l')
      end
  end.

(** [Write] as a whole: the call, then the loop under a schedule. *)
Definition Write {SubscribeResponse : Type}
    (ResponseToEventMsgs :
       string → SubscribeResponse → gmap string string → error + list EventMsg)
    (σ : state) (rsp : Message SubscribeResponse) (meta : gmap string string)
    (sched : list write_turn) : state * write_pc * list write_label :=
  let '(σ', pc, l) := Write_call ResponseToEventMsgs σ rsp meta in
  let '(pc', l') := Write_run sched pc in
  (σ', pc', l ++ l').

(** The events a trace of [Write] put on the event channel. *)
Definition enqueued (l : list write_label) : list EventMsg :=
  omap (λ x, match x with Enqueued ev => Some ev | _ => None end) l.

(** ** Writer workers *)

(** A writer handle as returned by [i.client.WriteAPI(org, bucket)]. *)
Definition handle := nat.

Inductive worker_label :=
| Acquired (h : handle) (org bucket : string)  (* writer := i.client.WriteAPI(...) *)
| Recovered (c : nat)                          (* <-i.startSig returned *)
| WritePoint (h : handle) (p : Point)          (* writer.WritePoint(p) *)
| ResetSeen (h : handle)                       (* <-i.reset returned; goto START *)
| WriteError (h : handle) (err : error)        (* <-writer.Errors() *)
| Terminated (h : handle).                     (* <-ctx.Done(); return *)

(** Where a worker stands: at label [START], blocked in [<-i.startSig]
    (evaluated to [c]), blocked in the [select] holding [writer] (with
    [i.reset] evaluated to [c]), or returned. *)
Inductive worker_pc :=
| WorkerStart (firstStart : bool)
| WorkerWaiting (c : nat)
| WorkerSelect (writer : handle) (c : nat)
| WorkerReturned.

Inductive worker_case :=
| WorkerCtxDone      (* case <-ctx.Done() *)
| WorkerEvent        (* case ev := <-i.eventChan *)
| WorkerReset        (* case <-i.reset *)
| WorkerWriteErr.    (* case err := <-writer.Errors() *)

(** What the worker's surroundings offer at one turn. *)
Record worker_env := {
  we_ctx_done : bool;             (* the context of Init is cancelled *)
  we_event : option EventMsg;     (* a Write is blocked sending this event *)
  we_write_err : option error;    (* the writer has an error to report *)
  we_WriteAPI : handle            (* what client.WriteAPI would return now *)
}.

(** [writer := i.client.WriteAPI(i.Cfg.Org, i.Cfg.Bucket)], then into the
    loop and its [select]. *)
Definition acquire (σ : state) (e : worker_env) : worker_pc * list worker_label :=
  (WorkerSelect (we_WriteAPI e) (reset (out σ)),
   [Acquired (we_WriteAPI e) (Org (Cfg (out σ))) (Bucket (Cfg (out σ)))]).

Definition worker_step (σ : state) (e : worker_env) (k : worker_case)
    (pc : worker_pc) : option (state * worker_pc * list worker_label) :=
  match pc with
  | WorkerStart true =>
      let '(pc', l) := acquire σ e in Some (σ, pc', l)
  | WorkerStart false =>
      Some (σ, WorkerWaiting (startSig (out σ)), [])
  | WorkerWaiting c =>
      if Chan.is_closed c (chans σ)
      then let '(pc', l) := acquire σ e in Some (σ, pc', Recovered c :: l)
      else None
  | WorkerSelect writer c =>
      match k with
      | WorkerCtxDone =>
          if we_ctx_done e then Some (σ, WorkerReturned, [Terminated writer])
          else None
      | WorkerEvent =>
          match we_event e with
          | Some ev =>
              Some (σ, WorkerSelect writer (reset (out σ)),
                    [WritePoint writer
                       (NewPoint (Name ev) (Tags ev) (Values ev)
                          (Time.Unix 0 (Timestamp ev)))])
          | None => None
          end
      | WorkerReset =>
          if Chan.is_closed c (chans σ)
          then Some (σ, WorkerStart false, [ResetSeen writer])
          else None
      | WorkerWriteErr =>
          match we_write_err e with
          | Some err =>
              Some (σ, WorkerSelect writer (reset (out σ)), [WriteError writer err])
          | None => None
          end
      end
  | WorkerReturned => None
  end.

Record worker_turn := {
  wk_state : state;
  wk_env : worker_env;
  wk_pick : worker_case
}.

(** A worker under a schedule, from the program point [pc]; a turn that
    is not enabled leaves it blocked where it is. *)
Fixpoint worker_run (sched : list worker_turn) (pc : worker_pc)
  : worker_pc * list worker_label :=
  match sched with
  | [] => (pc, [])
  | t :: sched' =>
      match worker_step (wk_state t) (wk_env t) (wk_pick t) pc with
      | None => worker_run sched' pc
      | Some (_, pc', l) =>
          let '(pc'', l') := worker_run sched' pc' in (pc'', l ++ l')
      end
  end.

(** [go i.worker(ctx, k)]: the goroutine starts with [firstStart := true]. *)
Definition worker (sched : list worker_turn) : worker_pc * list worker_label :=
  worker_run sched (WorkerStart true).

(** ** Observations used by the statements *)

(** The signal that was current in [σ] has been fired by the time of [σ']. *)
Definition reset_fired (σ σ' : state) : bool :=
  Chan.is_closed (reset (out σ)) (chans σ').

Definition startSig_fired (σ σ' : state) : bool :=
  Chan.is_closed (startSig (out σ)) (chans σ').

(** Both signals point at an unfired channel of their own. *)
Definition armed_reset (σ : state) : Prop :=
  chans σ !! reset (out σ) = Some (Chan.open_chan Chan.Reset).

Definition armed_startSig (σ : state) : Prop :=
  chans σ !! startSig (out σ) = Some (Chan.open_chan Chan.StartSig).

(** The state between two calls of [health]. *)
Definition wf (σ : state) : Prop :=
  armed_reset σ ∧ armed_startSig σ ∧
  Chan.live Chan.Reset (chans σ) = 1 ∧ Chan.live Chan.StartSig (chans σ) = 1.

(** A probe that [health] treats as healthy. *)
Definition succeeded (o : HealthOutcome) : bool :=
  match o with
  | ProbeFailed _ => false
  | Report (Some _) => false
  | Report None => true
  | NoReport => true
  end.

(** The points of an execution as far as the shared state goes: the
    state, and what is left to run of the call of [health] in progress.
    Only the goroutine running [Init] and then [healthCheck] assigns to
    the output; workers and callers of [Write] only read it. *)
Inductive at_point : state → list stmt → Prop :=
| at_new : at_point newOutput []
| at_assign σ f :
    at_point σ [] →
    (∃ c, f = set_Cfg c) ∨ (∃ c, f = set_client c) ∨ f = set_wasup true →
    at_point (on_out f σ) []
| at_call σ o :
    at_point σ [] → at_point σ (health_body (wasup (out σ)) o).1
| at_exec σ s rest σ' :
    at_point σ (s :: rest) → exec s σ = Some σ' → at_point σ' rest.

(** What holds at each point: between calls both signals are armed and
    alone; inside a call a fired signal is one statement away from its
    replacement. *)
Definition point_inv (σ : state) (rest : list stmt) : Prop :=
  match rest with
  | [MakeReset] =>
      armed_startSig σ ∧
      Chan.live Chan.Reset (chans σ) = 0 ∧ Chan.live Chan.StartSig (chans σ) = 1
  | [MakeStartSig] =>
      armed_reset σ ∧
      Chan.live Chan.Reset (chans σ) = 1 ∧ Chan.live Chan.StartSig (chans σ) = 0
  | [] | [CloseReset; MakeReset] | [CloseStartSig; MakeStartSig]
  | [SetWasup; CloseStartSig; MakeStartSig] => wf σ
  | _ => False
  end.

(** The health state of the spec (section 3): [Unknown] until the first
    successful probe, then [Up] or [Down] as the last probe told.  This
    definition follows the spec's words, not the code. *)
Inductive HealthState := Unknown | Up | Down.

Definition observe (s : HealthState) (o : HealthOutcome) : HealthState :=
  if succeeded o then Up
  else match s with
       | Up => Down
       | Unknown => Unknown
       | Down => Down
       end.

Definition confirmed (hist : list HealthOutcome) : HealthState :=
  fold_left observe hist Unknown.

(** The claim on the failure signal as the spec words it: a failed probe
    fires [reset] only when the state confirmed before it was [Up]. *)
Definition reset_only_on_up_to_down : Prop :=
  ∀ hist o σ σ' err,
    health_seq hist newOutput = Some σ →
    succeeded o = false →
    health σ o = Some (σ', err) →
    reset_fired σ σ' = true →
    confirmed hist = Up.

(** The claim on the recovery signal as the spec words it: a successful
    probe fires [startSig] only when the state confirmed before it was
    [Down]. *)
Definition startSig_only_on_down_to_up : Prop :=
  ∀ hist o σ σ' err,
    health_seq hist newOutput = Some σ →
    succeeded o = true →
    health σ o = Some (σ', err) →
    startSig_fired σ σ' = true →
    confirmed hist = Down.

(** The claim on delivery as the spec words it, for its first arm: when
    the caller's context is done, however the [select] of [Write]
    resolves, the call returns and the event is not enqueued. *)
Definition cancellation_wins : Prop :=
  ∀ σ receiver k c ev rest r,
    Write_select σ true receiver k (WriteSelect c ev rest) = Some r →
    r = (σ, WriteReturned, []).

(** Writer handles held by a worker after a trace: one more at each
    acquisition, one less when the worker lets go of its writer. *)
Fixpoint live_handles (l : list worker_label) : Z :=
  match l with
  | [] => 0
  | Acquired _ _ _ :: l' => live_handles l' + 1
  | ResetSeen _ :: l' => live_handles l' - 1
  | Terminated _ :: l' => live_handles l' - 1
  | _ :: l' => live_handles l'
  end%Z.

(** The worker life cycle of the spec (section 4.3), as an acceptor of
    worker traces; follows the spec's words, not the code. *)
Inductive phase :=
| Fresh                 (* nothing done yet *)
| Running (h : handle)  (* holding writer h *)
| Draining              (* failure seen, writer dropped *)
| Rebuilding            (* recovery seen, writer not yet acquired *)
| Stopped.

Definition phase_step (p : phase) (l : worker_label) : option phase :=
  match p, l with
  | Fresh, Acquired h _ _ => Some (Running h)
  | Running h, WritePoint h' _ => if Nat.eqb h h' then Some (Running h) else None
  | Running h, WriteError h' _ => if Nat.eqb h h' then Some (Running h) else None
  | Running h, ResetSeen h' => if Nat.eqb h h' then Some Draining else None
  | Running h, Terminated h' => if Nat.eqb h h' then Some Stopped else None
  | Draining, Recovered _ => Some Rebuilding
  | Rebuilding, Acquired h _ _ => Some (Running h)
  | _, _ => None
  end.

Fixpoint accepts (p : phase) (l : list worker_label) : option phase :=
  match l with
  | [] => Some p
  | x :: l' => p' ← phase_step p x; accepts p' l'
  end.

(** The phase a worker is in at each of its program points. *)
Definition phase_of (pc : worker_pc) : phase :=
  match pc with
  | WorkerStart true => Fresh
  | WorkerStart false => Draining
  | WorkerWaiting _ => Draining
  | WorkerSelect writer _ => Running writer
  | WorkerReturned => Stopped
  end.

Definition holds (p : phase) : Z :=
  match p with
  | Running _ => 1
  | _ => 0
  end.

(** What [Init] does for each probe that fails: a new client, then a
    sleep of ten seconds. *)
Definition retries (c : Client) (n : nat) : list init_effect :=
  mjoin (replicate n [NewClient c; Sleep (10 * Second)%Z]).

(** What [Init] does once a probe succeeds. *)
Definition startup (c : Client) : list init_effect :=
  [NewClient c; GoHealthCheck] ++ (GoWorker <$> seq 0 numWorkers) ++ [GoCloser].

(** The part of a batch a call of [Write] still has to deliver. *)
Definition pending (pc : write_pc) : list EventMsg :=
  match pc with
  | WriteSelect _ ev rest => ev :: rest
  | WriteReturned => []
  end.

(** ** The monitor goroutine from its start *)

(** [healthCheck] opens with [time.NewTicker(i.Cfg.HealthCheckPeriod)],
    which panics unless the period is positive; then comes the loop. *)
Definition healthCheck_ticker (evs : list monitor_event) (σ : state)
  : option (state * bool) :=
  if (0 <? HealthCheckPeriod (Cfg (out σ)))%Z then healthCheck evs σ else None.

(** ** A call of Write and the worker over the event channel *)

(** [i.eventChan] is made without a buffer: a send of [Write] goes through
    only together with a receive of the worker, both blocked in their
    [select].  A turn is such a hand-over, or a step one of the two takes
    alone. *)
Inductive joint_turn :=
| Handoff (σ : state)
| WriteTurn (t : write_turn)
| WorkerTurn (t : worker_turn).

(** What the worker sees when [Write] hands [ev] over. *)
Definition handoff_env (ev : EventMsg) : worker_env :=
  {| we_ctx_done := false; we_event := Some ev;
     we_write_err := None; we_WriteAPI := 0 |}.

(** The surroundings of a worker when no [Write] is sending. *)
Definition no_event (e : worker_env) : worker_env :=
  {| we_ctx_done := we_ctx_done e; we_event := None;
     we_write_err := we_write_err e; we_WriteAPI := we_WriteAPI e |}.

Definition joint_step (t : joint_turn) (wpc : write_pc) (kpc : worker_pc)
  : option (write_pc * list write_label * worker_pc * list worker_label) :=
  match t with
  | Handoff σ =>
      match wpc, kpc with
      | WriteSelect _ ev _, WorkerSelect _ _ =>
          match Write_select σ false true WriteSent wpc,
                worker_step σ (handoff_env ev) WorkerEvent kpc with
          | Some (_, wpc', lw), Some (_, kpc', lk) => Some (wpc', lw, kpc', lk)
          | _, _ => None
          end
      | _, _ => None
      end
  | WriteTurn t =>
      match Write_select (wt_state t) (wt_ctx_done t) false (wt_pick t) wpc with
      | Some (_, wpc', lw) => Some (wpc', lw, kpc, [])
      | None => None
      end
  | WorkerTurn t =>
      match worker_step (wk_state t) (no_event (wk_env t)) (wk_pick t) kpc with
      | Some (_, kpc', lk) => Some (wpc, [], kpc', lk)
      | None => None
      end
  end.

(** The two under a schedule; a turn that is not enabled changes nothing. *)
Fixpoint joint_run (sched : list joint_turn) (wpc : write_pc) (kpc : worker_pc)
  : write_pc * list write_label * worker_pc * list worker_label :=
  match sched with
  | [] => (wpc, [], kpc, [])
  | t :: sched' =>
      match joint_step t wpc kpc with
      | None => joint_run sched' wpc kpc
      | Some (wpc', lw, kpc', lk) =>
          let '(wpc'', lw', kpc'', lk') := joint_run sched' wpc' kpc' in
          (wpc'', lw ++ lw', kpc'', lk ++ lk')
      end
  end.

(** The point the worker builds from an event. *)
Definition point_of (ev : EventMsg) : Point :=
  NewPoint (Name ev) (Tags ev) (Values ev) (Time.Unix 0 (Timestamp ev)).


(** A probe that [health] treats as a failure. *)
Definition failed (o : HealthOutcome) : bool := negb (succeeded o).

(** ** Sample states and inputs *)

(** The output after a first probe that found the backend healthy. *)
Definition sample_up : state :=
  {| out := {| Cfg := zeroConfig; client := None;
               reset := 0; startSig := 2; wasup := true |};
     chans := [Chan.open_chan Chan.Reset;
               Chan.shut (Chan.open_chan Chan.StartSig);
               Chan.open_chan Chan.StartSig] |}.

(** The same output inside a failing call of [health], between
    [close(i.reset)] and the assignment that follows it. *)
Definition sample_mid : state :=
  {| out := out sample_up;
     chans := [Chan.shut (Chan.open_chan Chan.Reset);
               Chan.shut (Chan.open_chan Chan.StartSig);
               Chan.open_chan Chan.StartSig] |}.

(** The event of the spec's scenario C. *)
Definition sample_event : EventMsg :=
  {| Name := "ifcounters";
     Timestamp := 1600000000123456789;
     Tags := {[ "port" := "1" ]};
     Values := {[ "rx_bytes" := SInt 100 ]} |}.

Definition sample_env : worker_env :=
  {| we_ctx_done := false; we_event := Some sample_event;
     we_write_err := None; we_WriteAPI := 7 |}.

Definition sample_meta : gmap string string :=
  {[ "subscription-name" := "sub1" ]}.

(** A converter that rejects every response. *)
Definition rejecting (measName : string) (rsp : unit) (meta : gmap string string)
  : error + list EventMsg := inl "unsupported".

(** A converter that rejects the subscription ["sub1"] only. *)
Definition picky (measName : string) (rsp : unit) (meta : gmap string string)
  : error + list EventMsg :=
  if String.eqb measName "sub1" then inl "unsupported" else inr [sample_event].

(** A turn in which a worker that waits for recovery finds the context
    cancelled, an event offered and every case picked in vain. *)
Definition sample_cancelled_turn : worker_turn :=
  {| wk_state := sample_up;
     wk_env := {| we_ctx_done := true; we_event := Some sample_event;
                  we_write_err := Some "late"; we_WriteAPI := 7 |};
     wk_pick := WorkerCtxDone |}.

(** A turn in which [Write] finds nobody receiving. *)
Definition sample_idle_turn : write_turn :=
  {| wt_state := sample_up; wt_ctx_done := false;
     wt_receiver := false; wt_pick := WriteSent |}.

(** A decoded configuration with a negative health-check period. *)
Definition sample_negative_period : Config :=
  {| URL := ""; Org := "o"; Bucket := "b"; Token := ""; BatchSize := 0%N;
     FlushTimer := (-5000000)%Z; UseGzip := false; EnableTLS := false;
     HealthCheckPeriod := (-1)%Z; Debug := false |}.

(** The claim on the writer handle as the spec words it: the handle a
    worker acquires after a restart is a fresh one, different from the
    handle it acquired before. *)
Definition reacquired_handle_is_fresh : Prop :=
  ∀ sched l1 h org bucket l2 h' org' bucket' l3,
    (worker sched).2
    = l1 ++ Acquired h org bucket :: l2 ++ Acquired h' org' bucket' :: l3 →
    h' ≠ h.

(** The output of [sample_up] after a probe that failed, and after the
    successful probe that followed. *)
Definition sample_down : state :=
  {| out := {| Cfg := zeroConfig; client := None;
               reset := 3; startSig := 2; wasup := true |};
     chans := [Chan.shut (Chan.open_chan Chan.Reset);
               Chan.shut (Chan.open_chan Chan.StartSig);
               Chan.open_chan Chan.StartSig;
               Chan.open_chan Chan.Reset] |}.

Definition sample_recovered : state :=
  {| out := {| Cfg := zeroConfig; client := None;
               reset := 3; startSig := 4; wasup := true |};
     chans := [Chan.shut (Chan.open_chan Chan.Reset);
               Chan.shut (Chan.open_chan Chan.StartSig);
               Chan.shut (Chan.open_chan Chan.StartSig);
               Chan.open_chan Chan.Reset;
               Chan.open_chan Chan.StartSig] |}.

(** A turn of a worker whose client answers [WriteAPI] for the configured
    org and bucket with the handle 7 each time it is asked, as a client
    that keeps one write API per org and bucket does. *)
Definition sample_turn (σ : state) (k : worker_case) : worker_turn :=
  {| wk_state := σ; wk_env := sample_env; wk_pick := k |}.

(** * Proofs *)

(** ** Channels *)

Section ChanFacts.

Implicit Types (h : Chan.heap) (ch : Chan.t) (r : Chan.role) (c : nat).

Lemma live_app r h1 h2 :
  Chan.live r (h1 ++ h2) = Chan.live r h1 + Chan.live r h2.
Proof. unfold Chan.live. by rewrite List.filter_app, length_app. Qed.

Lemma fired_app r h1 h2 :
  Chan.fired r (h1 ++ h2) = Chan.fired r h1 + Chan.fired r h2.
Proof. unfold Chan.fired. by rewrite List.filter_app, length_app. Qed.

Lemma live_cons r ch h :
  Chan.live r (ch :: h) = (if Chan.is_live r ch then 1 else 0) + Chan.live r h.
Proof. unfold Chan.live. simpl. by destruct (Chan.is_live r ch). Qed.

Lemma fired_cons r ch h :
  Chan.fired r (ch :: h) = (if Chan.is_fired r ch then 1 else 0) + Chan.fired r h.
Proof. unfold Chan.fired. simpl. by destruct (Chan.is_fired r ch). Qed.

Lemma close_open c h ch :
  h !! c = Some ch → Chan.closed ch = false →
  Chan.close c h = Some (<[c := Chan.shut ch]> h).
Proof. intros Hc Ho. unfold Chan.close. by rewrite Hc, Ho. Qed.

Lemma live_shut r c h ch :
  h !! c = Some ch → Chan.closed ch = false →
  Chan.live r h =
    (if Chan.role_eqb (Chan.role_of ch) r then 1 else 0)
    + Chan.live r (<[c := Chan.shut ch]> h).
Proof.
  revert c. induction h as [|x h IH]; intros [|c] Hc Ho; try done.
  - injection Hc as ->.
    change (<[0 := Chan.shut ch]> (ch :: h)) with (Chan.shut ch :: h).
    rewrite !live_cons. unfold Chan.is_live. simpl. rewrite Ho.
    by destruct (Chan.role_eqb _ _).
  - change (<[S c := Chan.shut ch]> (x :: h)) with (x :: <[c := Chan.shut ch]> h).
    rewrite !live_cons, (IH c Hc Ho).
    by destruct (Chan.is_live r x), (Chan.role_eqb _ _).
Qed.

Lemma fired_shut r c h ch :
  h !! c = Some ch → Chan.closed ch = false →
  Chan.fired r (<[c := Chan.shut ch]> h) =
    (if Chan.role_eqb (Chan.role_of ch) r then 1 else 0) + Chan.fired r h.
Proof.
  revert c. induction h as [|x h IH]; intros [|c] Hc Ho; try done.
  - injection Hc as ->.
    change (<[0 := Chan.shut ch]> (ch :: h)) with (Chan.shut ch :: h).
    rewrite !fired_cons. unfold Chan.is_fired. simpl. rewrite Ho.
    by destruct (Chan.role_eqb _ _).
  - change (<[S c := Chan.shut ch]> (x :: h)) with (x :: <[c := Chan.shut ch]> h).
    rewrite !fired_cons, (IH c Hc Ho).
    by destruct (Chan.is_fired r x), (Chan.role_eqb _ _).
Qed.

Lemma is_closed_shut c h ch :
  h !! c = Some ch → Chan.is_closed c (<[c := Chan.shut ch]> h) = true.
Proof.
  intros Hc. unfold Chan.is_closed.
  rewrite list_lookup_insert_eq; [done | by eapply lookup_lt_Some].
Qed.

End ChanFacts.

(** ** The health monitor keeps both signals armed *)

(** Case analysis on a statement and what follows it, keeping only the
    shapes that occur in a body of [health]. *)
Ltac stmt_cases s rest :=
  destruct s, rest as [|s2 [|s3 [|? ?]]];
  try destruct s2; try destruct s3; try done.

Section HealthFacts.

Implicit Types (σ : state) (o : HealthOutcome) (s : stmt).

Lemma wf_newOutput : wf newOutput.
Proof. by repeat split. Qed.

Lemma wf_on_out σ f :
  reset (f (out σ)) = reset (out σ) →
  startSig (f (out σ)) = startSig (out σ) →
  wf σ → wf (on_out f σ).
Proof.
  intros Hr Hs (? & ? & ? & ?). unfold wf, armed_reset, armed_startSig.
  simpl. by rewrite Hr, Hs.
Qed.

Lemma armed_distinct σ :
  armed_reset σ → armed_startSig σ → reset (out σ) ≠ startSig (out σ).
Proof.
  unfold armed_reset, armed_startSig, Chan.open_chan. intros H1 H2 E. congruence.
Qed.

Lemma point_inv_call σ o :
  wf σ → point_inv σ (health_body (wasup (out σ)) o).1.
Proof. intros H. by destruct o as [?|[?|]|], (wasup (out σ)). Qed.

(** One statement of [health] runs without panic and re-establishes
    what the next one needs. *)
Lemma exec_point_inv σ s rest :
  point_inv σ (s :: rest) → ∃ σ', exec s σ = Some σ' ∧ point_inv σ' rest.
Proof.
  intros H. stmt_cases s rest; simpl in H.
  - (* close(i.reset) *)
    destruct H as (Hr & Hs & Lr & Ls). simpl.
    rewrite (close_open _ _ _ Hr eq_refl). simpl. eexists; split; [done|].
    repeat split; simpl.
    + unfold armed_startSig. simpl.
      rewrite list_lookup_insert_ne; [done | by apply armed_distinct].
    + pose proof (live_shut Chan.Reset _ _ _ Hr eq_refl) as E. simpl in E. lia.
    + pose proof (live_shut Chan.StartSig _ _ _ Hr eq_refl) as E. simpl in E. lia.
  - (* i.reset = make(chan struct{}) *)
    destruct H as (Hs & Lr & Ls). simpl. eexists; split; [done|].
    repeat split; simpl.
    + unfold armed_reset. simpl. by rewrite lookup_app_r, Nat.sub_diag.
    + unfold armed_startSig. simpl.
      rewrite lookup_app_l; [done | by eapply lookup_lt_Some].
    + rewrite live_app, Lr. done.
    + rewrite live_app, Ls. done.
  - (* i.wasup = true *)
    simpl. eexists; split; [done|]. by apply wf_on_out.
  - (* close(i.startSig) *)
    destruct H as (Hr & Hs & Lr & Ls). simpl.
    rewrite (close_open _ _ _ Hs eq_refl). simpl. eexists; split; [done|].
    repeat split; simpl.
    + unfold armed_reset. simpl.
      rewrite list_lookup_insert_ne; [done | by apply not_eq_sym, armed_distinct].
    + pose proof (live_shut Chan.Reset _ _ _ Hs eq_refl) as E. simpl in E. lia.
    + pose proof (live_shut Chan.StartSig _ _ _ Hs eq_refl) as E. simpl in E. lia.
  - (* i.startSig = make(chan struct{}) *)
    destruct H as (Hr & Lr & Ls). simpl. eexists; split; [done|].
    repeat split; simpl.
    + unfold armed_reset. simpl.
      rewrite lookup_app_l; [done | by eapply lookup_lt_Some].
    + unfold armed_startSig. simpl. by rewrite lookup_app_r, Nat.sub_diag.
    + rewrite live_app, Lr. done.
    + rewrite live_app, Ls. done.
Qed.

Lemma exec_all_point_inv ss σ :
  point_inv σ ss → ∃ σ', exec_all ss σ = Some σ' ∧ wf σ'.
Proof.
  revert σ. induction ss as [|s ss IH]; intros σ H.
  - by exists σ.
  - destruct (exec_point_inv _ _ _ H) as (σ1 & E & H1).
    destruct (IH _ H1) as (σ' & E' & W). exists σ'. simpl. by rewrite E.
Qed.

Lemma at_point_inv σ rest : at_point σ rest → point_inv σ rest.
Proof.
  induction 1 as [|σ f _ IH Hf|σ o _ IH|σ s rest σ' _ IH E].
  - apply wf_newOutput.
  - simpl in *. apply wf_on_out; [..|done];
      by destruct Hf as [[? ->]|[[? ->]| ->]].
  - by apply point_inv_call.
  - destruct (exec_point_inv _ _ _ IH) as (σ1 & E1 & H1). congruence.
Qed.

End HealthFacts.

(** ** What one call of [health] does to the signals *)

Section HealthCalls.

Implicit Types (σ : state) (o : HealthOutcome).

Lemma health_failure σ o :
  wf σ → succeeded o = false →
  ∃ σ' err, health σ o = Some (σ', Some err) ∧ wf σ' ∧
    wasup (out σ') = wasup (out σ) ∧
    startSig (out σ') = startSig (out σ) ∧
    reset (out σ') =
      (if wasup (out σ) then length (chans σ) else reset (out σ)) ∧
    chans σ' =
      (if wasup (out σ)
       then <[reset (out σ) := Chan.shut (Chan.open_chan Chan.Reset)]> (chans σ)
              ++ [Chan.open_chan Chan.Reset]
       else chans σ).
Proof.
  intros W Ho.
  destruct (exec_all_point_inv _ _ (point_inv_call σ o W)) as (σ' & E & W').
  assert (∃ err, (health_body (wasup (out σ)) o).2 = Some err) as [err He]
    by (destruct o as [?|[?|]|]; try done; by eexists).
  exists σ', err. unfold health.
  destruct (health_body (wasup (out σ)) o) as [ss e] eqn:Hb. simpl in *.
  subst e. rewrite E. split; [done|]. split; [done|].
  assert (ss = if wasup (out σ) then [CloseReset; MakeReset] else []) as ->
    by (destruct o as [?|[?|]|]; try done; simpl in Hb; congruence).
  destruct W as (Hr & _). destruct (wasup (out σ)) eqn:Hw; simpl in E.
  - rewrite (close_open _ _ _ Hr eq_refl) in E. simpl in E.
    injection E as <-. simpl. by rewrite length_insert in W' |- *.
  - by injection E as <-.
Qed.

Lemma health_success σ o :
  wf σ → succeeded o = true →
  ∃ σ', health σ o = Some (σ', None) ∧ wf σ' ∧
    wasup (out σ') = true ∧
    reset (out σ') = reset (out σ) ∧
    startSig (out σ') = length (chans σ) ∧
    chans σ' =
      <[startSig (out σ) := Chan.shut (Chan.open_chan Chan.StartSig)]> (chans σ)
        ++ [Chan.open_chan Chan.StartSig].
Proof.
  intros W Ho.
  destruct (exec_all_point_inv _ _ (point_inv_call σ o W)) as (σ' & E & W').
  exists σ'. unfold health.
  assert (health_body (wasup (out σ)) o
          = ([SetWasup; CloseStartSig; MakeStartSig], None)) as Hb
    by (by destruct o as [?|[?|]|]).
  rewrite Hb in *. simpl in E |- *. destruct W as (_ & Hs & _).
  rewrite (close_open _ _ _ Hs eq_refl) in E |- *. simpl in E |- *.
  injection E as <-. simpl. by rewrite length_insert in W' |- *.
Qed.

Lemma health_wf σ o σ' err :
  wf σ → health σ o = Some (σ', err) → wf σ'.
Proof.
  intros W E. destruct (succeeded o) eqn:Ho.
  - destruct (health_success _ _ W Ho) as (? & E' & ? & _). congruence.
  - destruct (health_failure _ _ W Ho) as (? & ? & E' & ? & _). congruence.
Qed.

Lemma health_total σ o : wf σ → ∃ σ' err, health σ o = Some (σ', err).
Proof.
  intros W. destruct (succeeded o) eqn:Ho.
  - destruct (health_success _ _ W Ho) as (? & E' & _). eauto.
  - destruct (health_failure _ _ W Ho) as (? & ? & E' & _). eauto.
Qed.

Lemma health_wasup σ o σ' err :
  wf σ → health σ o = Some (σ', err) →
  wasup (out σ') = wasup (out σ) || succeeded o.
Proof.
  intros W E. destruct (succeeded o) eqn:Ho.
  - destruct (health_success _ _ W Ho) as (σ1 & E' & _ & Hw & _).
    rewrite orb_true_r. congruence.
  - destruct (health_failure _ _ W Ho) as (σ1 & ? & E' & _ & Hw & _).
    rewrite orb_false_r. congruence.
Qed.

(** After any sequence of calls the flag tells whether one of the
    probes so far succeeded: nothing ever clears it. *)
Lemma health_seq_from hist σ0 σ :
  wf σ0 → health_seq hist σ0 = Some σ →
  wf σ ∧ wasup (out σ) = wasup (out σ0) || existsb succeeded hist.
Proof.
  revert σ0. induction hist as [|o hist IH]; intros σ0 W E; simpl in E.
  - injection E as <-. by rewrite orb_false_r.
  - destruct (health σ0 o) as [[σ1 e]|] eqn:E1; [|done]. simpl in E.
    destruct (IH _ (health_wf _ _ _ _ W E1) E) as [W' Hw]. split; [done|].
    rewrite Hw, (health_wasup _ _ _ _ W E1). simpl. by rewrite orb_assoc.
Qed.

Lemma health_seq_new hist σ :
  health_seq hist newOutput = Some σ →
  wf σ ∧ wasup (out σ) = existsb succeeded hist.
Proof. intros E. by apply (health_seq_from hist newOutput σ wf_newOutput). Qed.

End HealthCalls.

(** ** The signals along an execution *)

Section Signals.

Implicit Types (σ : state) (o : HealthOutcome) (hist : list HealthOutcome).

Lemma exec_all_at_point ss σ σ' :
  at_point σ ss → exec_all ss σ = Some σ' → at_point σ' [].
Proof.
  revert σ. induction ss as [|s ss IH]; intros σ P E; simpl in E.
  - by injection E as <-.
  - destruct (exec s σ) as [σ1|] eqn:E1; [|done].
    eapply IH; [|done]. by eapply at_exec.
Qed.

(** The calls made by [Init] and by [healthCheck] stay inside the
    points described by [at_point]. *)
Lemma health_at_point σ o σ' err :
  at_point σ [] → health σ o = Some (σ', err) → at_point σ' [].
Proof.
  intros P E. unfold health in E.
  pose proof (at_call σ o P) as Pc.
  destruct (health_body (wasup (out σ)) o) as [ss e]. simpl in *.
  destruct (exec_all ss σ) as [σ1|] eqn:E1; [|done].
  injection E as <- _. by eapply exec_all_at_point.
Qed.

Lemma healthCheck_at_point evs σ σ' b :
  at_point σ [] → healthCheck evs σ = Some (σ', b) → at_point σ' [].
Proof.
  revert σ. induction evs as [|[o|] evs IH]; intros σ P E; simpl in E.
  - by injection E as <- _.
  - destruct (health σ o) as [[σ1 e]|] eqn:E1; [|done].
    eapply IH; [|done]. by eapply health_at_point.
  - by injection E as <- _.
Qed.

Lemma CRCLIENT_at_point probes iopts σ σ' tr err :
  at_point σ [] →
  CRCLIENT probes iopts σ = (σ', tr, InitReturned err) → at_point σ' [].
Proof.
  revert σ tr. induction probes as [|o probes IH]; intros σ tr P E; [done|].
  simpl in E.
  set (c := NewClientWithOptions _ _ _) in E.
  assert (at_point (on_out (set_client c) σ) []) as P1
    by (apply at_assign; [done | right; left; by exists c]).
  destruct (health _ o) as [[σ2 [e|]]|] eqn:E1; [| |done].
  - destruct (CRCLIENT probes iopts σ2) as [[σ3 tr3] st3] eqn:E3.
    injection E as <- _ ->. eapply IH; [|done]. by eapply health_at_point.
  - injection E as <- _ _. apply at_assign; [|by right; right].
    by eapply health_at_point.
Qed.

Lemma Init_at_point decoded probes σ σ' tr err :
  at_point σ [] →
  Init decoded probes σ = (σ', tr, InitReturned err) → at_point σ' [].
Proof.
  intros P E. unfold Init in E.
  assert (at_point (on_out (set_Cfg decoded.1) σ) []) as P0
    by (apply at_assign; [done | left; by eexists]).
  destruct decoded.2 as [e|].
  - by injection E as <- _ _.
  - eapply CRCLIENT_at_point; [|done].
    apply at_assign; [done | left; by eexists].
Qed.


Lemma at_point_sample_up : at_point sample_up [].
Proof.
  apply (health_at_point newOutput NoReport sample_up None at_new).
  reflexivity.
Defined.

Lemma at_point_sample_mid : at_point sample_mid [MakeReset].
Proof.
  apply (at_exec sample_up CloseReset [MakeReset] sample_mid);
    [| reflexivity].
  exact (at_call sample_up (ProbeFailed "down") at_point_sample_up).
Defined.

(** C3.  At every point of every execution, inside a call of [health] as
    well as between calls, at most one failure signal and at most one
    recovery signal are unfired.  No statement of [health] panics; the
    statement after a [close] is the [make] for the same field; a close
    fires the signal that was current, and the make installs a channel
    that did not exist before and is unfired. *)
Theorem fire_and_rearm σ rest :
  at_point σ rest →
  Chan.live Chan.Reset (chans σ) ≤ 1 ∧
  Chan.live Chan.StartSig (chans σ) ≤ 1 ∧
  (rest = [] → armed_reset σ ∧ armed_startSig σ) ∧
  (∀ s rest', rest = s :: rest' →
     ∃ σ', exec s σ = Some σ' ∧ at_point σ' rest' ∧
       (s = CloseReset → reset_fired σ σ' = true ∧ rest' = [MakeReset]) ∧
       (s = CloseStartSig →
          startSig_fired σ σ' = true ∧ rest' = [MakeStartSig]) ∧
       (s = MakeReset →
          chans σ !! reset (out σ') = None ∧ armed_reset σ') ∧
       (s = MakeStartSig →
          chans σ !! startSig (out σ') = None ∧ armed_startSig σ')).
Proof.
  intros P. pose proof (at_point_inv _ _ P) as I.
  assert (Chan.live Chan.Reset (chans σ) ≤ 1
          ∧ Chan.live Chan.StartSig (chans σ) ≤ 1) as [L1 L2].
  { destruct rest as [|s rest']; [simpl in I; unfold wf in I; lia|].
    stmt_cases s rest'; simpl in I; unfold wf in I; lia. }
  split; [exact L1|]. split; [exact L2|]. split.
  - intros ->. split; apply I.
  - intros s rest' ->.
    destruct (exec_point_inv _ _ _ I) as (σ' & E & I').
    exists σ'. split; [done|]. split; [by eapply at_exec|].
    stmt_cases s rest'; simpl in I, I', E.
    + (* close(i.reset) *)
      destruct I as (Hr & _).
      rewrite (close_open _ _ _ Hr eq_refl) in E. injection E as <-.
      repeat split; try done. by eapply is_closed_shut.
    + (* i.reset = make(...) *)
      injection E as <-. repeat split; try done; try apply I'.
      simpl. by apply lookup_ge_None.
    + (* close(i.startSig) *)
      destruct I as (_ & Hs & _).
      rewrite (close_open _ _ _ Hs eq_refl) in E. injection E as <-.
      repeat split; try done. by eapply is_closed_shut.
    + (* i.startSig = make(...) *)
      injection E as <-. repeat split; try done; try apply I'.
      simpl. by apply lookup_ge_None.
Qed.

Lemma fire_and_rearm_witness :
  at_point sample_mid [MakeReset] ∧
  Chan.live Chan.Reset (chans sample_mid) ≤ 1 ∧
  Chan.live Chan.StartSig (chans sample_mid) ≤ 1.
Proof.
  split; [exact at_point_sample_mid|].
  destruct (fire_and_rearm sample_mid [MakeReset] at_point_sample_mid)
    as (L1 & L2 & _).
  split; [exact L1 | exact L2].
Defined.

(** C1 (as the code has it).  Between two calls of [health], at any
    point of any execution, a failed probe or a malformed report closes
    the reset channel, once, exactly when [wasup] is set, and leaves
    [wasup] and the recovery signal as they were.  [wasup] is set by a
    successful probe and cleared by nothing: along the calls of [health]
    it tells that some earlier probe succeeded, not what the last probe
    said. *)
Theorem health_failure_fires_reset_iff_wasup σ o :
  at_point σ [] →
  succeeded o = false →
  ∃ σ' err, health σ o = Some (σ', Some err) ∧
    reset_fired σ σ' = wasup (out σ) ∧
    Chan.fired Chan.Reset (chans σ') =
      (if wasup (out σ) then 1 else 0) + Chan.fired Chan.Reset (chans σ) ∧
    wasup (out σ') = wasup (out σ) ∧
    startSig_fired σ σ' = false ∧
    (∀ hist, health_seq hist newOutput = Some σ →
             wasup (out σ) = existsb succeeded hist).
Proof.
  intros P Ho. pose proof (at_point_inv _ _ P) as W. simpl in W.
  destruct (health_failure _ _ W Ho) as (σ' & err & E & W' & Hw' & Hs & Hr & Hc).
  exists σ', err. split; [done|].
  destruct W as (Ar & As & _).
  assert (reset (out σ) < length (chans σ)) as Lr by (by eapply lookup_lt_Some).
  assert (startSig (out σ) < length (chans σ)) as Ls by (by eapply lookup_lt_Some).
  assert (∀ hist, health_seq hist newOutput = Some σ →
                  wasup (out σ) = existsb succeeded hist) as Hrun
    by (intros hist Hseq; by destruct (health_seq_new _ _ Hseq)).
  unfold reset_fired, startSig_fired, Chan.is_closed. rewrite Hc.
  destruct (wasup (out σ)) eqn:Hup.
  - rewrite !lookup_app_l by (by rewrite length_insert).
    rewrite list_lookup_insert_eq by done.
    rewrite list_lookup_insert_ne by (by apply armed_distinct).
    rewrite As, fired_app, (fired_shut _ _ _ _ Ar eq_refl). simpl.
    split_and!; try done; unfold Chan.fired; simpl; lia.
  - rewrite Ar, As. by split_and!.
Qed.

Lemma health_failure_fires_reset_iff_wasup_witness :
  at_point sample_up [] ∧
  succeeded (ProbeFailed "down") = false ∧
  ∃ σ' err, health sample_up (ProbeFailed "down") = Some (σ', Some err) ∧
    reset_fired sample_up σ' = true ∧
    wasup (out σ') = true.
Proof.
  split; [exact at_point_sample_up|]. split; [reflexivity|].
  destruct (health_failure_fires_reset_iff_wasup sample_up (ProbeFailed "down")
              at_point_sample_up eq_refl) as (σ' & err & E & F & _ & Hw & _).
  exists σ', err. split; [exact E|]. split; [exact F | exact Hw].
Defined.

(** C1 as the spec words it fails: after one successful probe, two
    failed probes in a row both close the reset channel, the second one
    while the confirmed state is already [Down]. *)
Lemma reset_refires_while_down :
  confirmed [NoReport; ProbeFailed "down"] = Down ∧
  (∃ σ σ', health_seq [NoReport; ProbeFailed "down"] newOutput = Some σ ∧
           health σ (ProbeFailed "down") = Some (σ', Some "down") ∧
           reset_fired σ σ' = true ∧
           Chan.fired Chan.Reset (chans σ') = 2) ∧
  ¬ reset_only_on_up_to_down.
Proof.
  split; [reflexivity|]. split.
  - eexists _, _. repeat split; reflexivity.
  - intros H.
    by specialize (H [NoReport; ProbeFailed "down"] (ProbeFailed "down")
                     _ _ _ eq_refl eq_refl eq_refl eq_refl).
Qed.

(** C2 (as the code has it).  Between two calls of [health], at any
    point of any execution, every successful probe, with a report that
    marshals or with none, closes the current [startSig] channel once and
    installs a new unfired one, whatever [wasup] was; a failed probe
    never closes it. *)
Theorem health_fires_startSig_iff_success σ o :
  at_point σ [] →
  ∃ σ' err, health σ o = Some (σ', err) ∧
    startSig_fired σ σ' = succeeded o ∧
    Chan.fired Chan.StartSig (chans σ') =
      (if succeeded o then 1 else 0) + Chan.fired Chan.StartSig (chans σ) ∧
    armed_startSig σ' ∧
    (succeeded o = true →
       wasup (out σ') = true ∧ chans σ !! startSig (out σ') = None).
Proof.
  intros P. pose proof (at_point_inv _ _ P) as W. simpl in W.
  pose proof W as (Ar & As & _).
  assert (reset (out σ) < length (chans σ)) as Lr by (by eapply lookup_lt_Some).
  assert (startSig (out σ) < length (chans σ)) as Ls by (by eapply lookup_lt_Some).
  destruct (succeeded o) eqn:Ho.
  - destruct (health_success _ _ W Ho) as (σ' & E & W' & Hw' & Hr & Hs & Hc).
    exists σ', None. split; [done|].
    unfold startSig_fired, Chan.is_closed. rewrite Hc, Hs.
    rewrite lookup_app_l by (by rewrite length_insert).
    rewrite list_lookup_insert_eq by done.
    rewrite fired_app, (fired_shut _ _ _ _ As eq_refl). simpl.
    repeat split; try done; try apply W'; by apply lookup_ge_None.
  - destruct (health_failure _ _ W Ho) as (σ' & err & E & W' & Hw' & Hs & Hr & Hc).
    exists σ', (Some err). split; [done|].
    unfold startSig_fired, Chan.is_closed. rewrite Hc.
    destruct (wasup (out σ)).
    + rewrite lookup_app_l by (by rewrite length_insert).
      rewrite list_lookup_insert_ne by (by apply armed_distinct).
      rewrite As, fired_app, (fired_shut _ _ _ _ Ar eq_refl). simpl.
      repeat split; try done; try apply W'; unfold Chan.fired; simpl; lia.
    + rewrite As. repeat split; try done; apply W'.
Qed.

Lemma health_fires_startSig_iff_success_witness :
  at_point sample_up [] ∧
  ∃ σ' err, health sample_up (Report None) = Some (σ', err) ∧
    startSig_fired sample_up σ' = true ∧
    armed_startSig σ'.
Proof.
  split; [exact at_point_sample_up|].
  destruct (health_fires_startSig_iff_success sample_up (Report None)
              at_point_sample_up) as (σ' & err & E & F & _ & A & _).
  exists σ', err. split; [exact E|]. split; [exact F | exact A].
Defined.

(** C2 as the spec words it fails: a second successful probe, made while
    the confirmed state is already [Up], closes [startSig] again. *)
Lemma startSig_refires_while_up :
  confirmed [NoReport] = Up ∧
  (∃ σ σ', health_seq [NoReport] newOutput = Some σ ∧
           health σ NoReport = Some (σ', None) ∧
           startSig_fired σ σ' = true ∧
           Chan.fired Chan.StartSig (chans σ') = 2) ∧
  ¬ startSig_only_on_down_to_up.
Proof.
  split; [reflexivity|]. split.
  - eexists _, _. repeat split; reflexivity.
  - intros H.
    by specialize (H [NoReport] NoReport _ _ _ eq_refl eq_refl eq_refl eq_refl).
Qed.

End Signals.

(** ** Initialisation *)

Section InitFacts.

Implicit Types (σ : state) (o : HealthOutcome) (c : Config).

Lemma exec_frame s σ σ' :
  exec s σ = Some σ' →
  Cfg (out σ') = Cfg (out σ) ∧ client (out σ') = client (out σ).
Proof.
  destruct s; simpl; intros E.
  - destruct (Chan.close _ _); by simplify_eq/=.
  - by simplify_eq/=.
  - by simplify_eq/=.
  - destruct (Chan.close _ _); by simplify_eq/=.
  - by simplify_eq/=.
Qed.

Lemma exec_all_frame ss σ σ' :
  exec_all ss σ = Some σ' →
  Cfg (out σ') = Cfg (out σ) ∧ client (out σ') = client (out σ).
Proof.
  revert σ. induction ss as [|s ss IH]; intros σ E; simpl in E.
  - by injection E as <-.
  - destruct (exec s σ) as [σ1|] eqn:E1; [|done]. simpl in E.
    destruct (exec_frame _ _ _ E1) as [<- <-]. by apply IH.
Qed.

(** [health] never touches the configuration nor the client. *)
Lemma health_frame σ o σ' err :
  health σ o = Some (σ', err) →
  Cfg (out σ') = Cfg (out σ) ∧ client (out σ') = client (out σ).
Proof.
  unfold health. destruct (health_body _ _) as [ss e]. intros E.
  destruct (exec_all ss σ) as [σ1|] eqn:E1; [|done]. injection E as <- _.
  by eapply exec_all_frame.
Qed.

Lemma CRCLIENT_Cfg probes iopts σ :
  Cfg (out (CRCLIENT probes iopts σ).1.1) = Cfg (out σ).
Proof.
  revert σ. induction probes as [|o probes IH]; intros σ; [done|]. simpl.
  destruct (health _ o) as [[σ2 [e|]]|] eqn:E; [| |done].
  - specialize (IH σ2). destruct (CRCLIENT probes iopts σ2) as [[σ3 tr] st].
    simpl in *. rewrite IH. by destruct (health_frame _ _ _ _ E) as [-> _].
  - simpl. by destruct (health_frame _ _ _ _ E) as [-> _].
Qed.

(** The loop goes through failing probes one by one. *)
Lemma CRCLIENT_failing fails rest iopts σ :
  wf σ → Forall (λ o, succeeded o = false) fails →
  ∃ σ1, wf σ1 ∧ Cfg (out σ1) = Cfg (out σ) ∧ wasup (out σ1) = wasup (out σ) ∧
    CRCLIENT (fails ++ rest) iopts σ =
      ((CRCLIENT rest iopts σ1).1.1,
       retries (NewClientWithOptions (URL (Cfg (out σ))) (Token (Cfg (out σ))) iopts)
               (length fails)
         ++ (CRCLIENT rest iopts σ1).1.2,
       (CRCLIENT rest iopts σ1).2).
Proof.
  revert σ. induction fails as [|o fails IH]; intros σ W F.
  - exists σ. split_and!; try done. simpl.
    by destruct (CRCLIENT rest iopts σ) as [[? ?] ?].
  - apply Forall_cons in F as [Fo F]. simpl.
    set (c := NewClientWithOptions _ _ _).
    assert (wf (on_out (set_client c) σ)) as W1 by (by apply wf_on_out).
    destruct (health_failure _ o W1 Fo) as (σ2 & err & E & W2 & Hw & _).
    destruct (health_frame _ _ _ _ E) as [Hc _].
    destruct (IH σ2 W2 F) as (σ3 & W3 & Hc3 & Hw3 & E3).
    exists σ3. rewrite E, E3, Hc. simpl in *. split_and!; try done; congruence.
Qed.

(** C9.  After a decode that succeeded, whatever the probes do, the
    configuration of the output has the default in every one of the four
    fields that was zero, and every other value as decoded. *)
Theorem Init_applies_defaults c probes σ :
  Cfg (out (Init (c, None) probes σ).1.1) = withDefaults c ∧
  URL (withDefaults c) =
    (if decide (URL c = "") then "http://localhost:8086" else URL c) ∧
  BatchSize (withDefaults c) =
    (if decide (BatchSize c = 0%N) then 1000%N else BatchSize c) ∧
  FlushTimer (withDefaults c) =
    (if decide (FlushTimer c = 0%Z) then 10000000000%Z else FlushTimer c) ∧
  HealthCheckPeriod (withDefaults c) =
    (if decide (HealthCheckPeriod c = 0%Z) then 30000000000%Z
     else HealthCheckPeriod c) ∧
  Org (withDefaults c) = Org c ∧ Bucket (withDefaults c) = Bucket c ∧
  Token (withDefaults c) = Token c ∧ UseGzip (withDefaults c) = UseGzip c ∧
  EnableTLS (withDefaults c) = EnableTLS c ∧ Debug (withDefaults c) = Debug c.
Proof.
  split.
  { unfold Init. simpl. by rewrite CRCLIENT_Cfg. }
  unfold withDefaults. simpl. repeat split.
  - destruct (String.eqb_spec (URL c) ""); by case_decide.
  - destruct (N.eqb_spec (BatchSize c) 0); by case_decide.
  - destruct (Z.eqb_spec (FlushTimer c) 0); by case_decide.
  - destruct (Z.eqb_spec (HealthCheckPeriod c) 0); by case_decide.
Qed.

(** C6.  [Init] returns an error exactly when the decode returned one.
    After a good decode, as long as probes fail [Init] is still in its
    loop, having made a new client and slept ten seconds for each of
    them and spawned nothing; at the first probe that succeeds it spawns
    the monitor, the workers and the closer, in that order, and returns
    nil. *)
Theorem Init_retries_until_healthy c dec probes σ :
  wf σ →
  (∀ err, (Init (c, dec) probes σ).2 = InitReturned (Some err) ↔ dec = Some err) ∧
  (dec = None →
   Forall (λ o, succeeded o = false) probes →
   (Init (c, dec) probes σ).2 = InitRetrying ∧
   (Init (c, dec) probes σ).1.2 =
     retries (NewClientWithOptions (URL (withDefaults c)) (Token c)
                (clientOptions (withDefaults c)))
             (length probes)) ∧
  (dec = None →
   ∀ fails o rest,
     probes = fails ++ o :: rest →
     Forall (λ o, succeeded o = false) fails →
     succeeded o = true →
     (Init (c, dec) probes σ).2 = InitReturned None ∧
     (Init (c, dec) probes σ).1.2 =
       retries (NewClientWithOptions (URL (withDefaults c)) (Token c)
                  (clientOptions (withDefaults c)))
               (length fails)
       ++ startup (NewClientWithOptions (URL (withDefaults c)) (Token c)
                     (clientOptions (withDefaults c))) ∧
     wasup (out (Init (c, dec) probes σ).1.1) = true).
Proof.
  intros W. split; [|split].
  - intros err. unfold Init. simpl. destruct dec as [e|]; simpl.
    + split; intros H; by simplify_eq.
    + split; [|done]. intros H. exfalso. revert H.
      generalize (on_out (set_Cfg (withDefaults c)) (on_out (set_Cfg c) σ)).
      generalize (clientOptions (withDefaults c)).
      induction probes as [|o probes IH]; intros iopts σ0; [done|]. simpl.
      destruct (health _ o) as [[σ2 [e|]]|]; try done.
      specialize (IH iopts σ2).
      by destruct (CRCLIENT probes iopts σ2) as [[? ?] ?].
  - intros -> F. unfold Init. simpl.
    set (σ1 := on_out _ (on_out _ σ)).
    assert (wf σ1) as W1 by (by apply wf_on_out; [..|apply wf_on_out]).
    destruct (CRCLIENT_failing probes [] (clientOptions (withDefaults c)) σ1 W1 F)
      as (σ2 & _ & _ & _ & E).
    rewrite app_nil_r in E. rewrite E. simpl. by rewrite app_nil_r.
  - intros -> fails o rest -> F Ho. unfold Init. simpl.
    set (σ1 := on_out _ (on_out _ σ)).
    assert (wf σ1) as W1 by (by apply wf_on_out; [..|apply wf_on_out]).
    destruct (CRCLIENT_failing fails (o :: rest) (clientOptions (withDefaults c))
                σ1 W1 F) as (σ2 & W2 & Hc & _ & E).
    rewrite E. simpl.
    set (cl := NewClientWithOptions (URL (Cfg (out σ2))) _ _).
    assert (wf (on_out (set_client cl) σ2)) as W3 by (by apply wf_on_out).
    destruct (health_success _ o W3 Ho) as (σ3 & E3 & _).
    rewrite E3. simpl. repeat split. subst cl. by rewrite Hc.
Qed.

Lemma Init_retries_until_healthy_witness :
  wf newOutput ∧
  (Init (zeroConfig, None)
        [ProbeFailed "refused"; ProbeFailed "refused"; Report (Some "bad json");
         Report None; ProbeFailed "late"] newOutput).2 = InitReturned None ∧
  (Init (zeroConfig, None)
        [ProbeFailed "refused"; ProbeFailed "refused"; Report (Some "bad json");
         Report None; ProbeFailed "late"] newOutput).1.2 =
    retries (NewClientWithOptions (URL (withDefaults zeroConfig)) (Token zeroConfig)
               (clientOptions (withDefaults zeroConfig))) 3
    ++ startup (NewClientWithOptions (URL (withDefaults zeroConfig)) (Token zeroConfig)
                  (clientOptions (withDefaults zeroConfig))).
Proof.
  split; [exact wf_newOutput|].
  destruct (Init_retries_until_healthy zeroConfig None
              [ProbeFailed "refused"; ProbeFailed "refused"; Report (Some "bad json");
               Report None; ProbeFailed "late"] newOutput wf_newOutput)
    as (_ & _ & H).
  destruct (H eq_refl
              [ProbeFailed "refused"; ProbeFailed "refused"; Report (Some "bad json")]
              (Report None) [ProbeFailed "late"] eq_refl) as (H1 & H2 & _).
  - repeat constructor.
  - reflexivity.
  - split; [exact H1 | exact H2].
Defined.

End InitFacts.

(** ** Timestamps *)

Section TimeFacts.

Local Open Scope Z_scope.

Lemma wrap64_small z : int64 z → wrap64 z = z.
Proof. unfold int64, wrap64. intros H. rewrite Z.mod_small; lia. Qed.

Lemma wrap64_add_l a b : wrap64 (wrap64 a + b) = wrap64 (a + b).
Proof.
  unfold wrap64. f_equal.
  replace ((a + 2 ^ 63) mod 2 ^ 64 - 2 ^ 63 + b + 2 ^ 63)
    with ((a + 2 ^ 63) mod 2 ^ 64 + b) by lia.
  rewrite Zplus_mod_idemp_l. f_equal. lia.
Qed.

(** [time.Unix(0, ts).UnixNano()] gives [ts] back, and the nanosecond
    part is normalised. *)
Lemma UnixNano_Unix ts :
  int64 ts →
  Time.UnixNano (Time.Unix 0 ts) = ts ∧
  0 ≤ Time.nsec (Time.Unix 0 ts) < 1000000000.
Proof.
  intros H. pose proof H as H64. unfold int64 in H. unfold Time.Unix.
  destruct ((ts <? 0) || (1000000000 <=? ts)) eqn:C.
  - pose proof (Z.quot_rem' ts 1000000000) as Hqr.
    assert (Rb : -1000000000 < Z.rem ts 1000000000 < 1000000000)
      by (Z.to_euclidean_division_equations; lia).
    assert (Rs : 0 ≤ ts → 0 ≤ Z.rem ts 1000000000)
      by (Z.to_euclidean_division_equations; lia).
    assert (Rn : ts ≤ 0 → Z.rem ts 1000000000 ≤ 0)
      by (Z.to_euclidean_division_equations; lia).
    set (q := ts ÷ 1000000000) in *. set (r := Z.rem ts 1000000000) in *.
    assert (Hq : - 2 ^ 63 < q * 1000000000 < 2 ^ 63) by lia.
    rewrite (wrap64_small (0 + q)) by (unfold int64; lia).
    rewrite (wrap64_small (q * 1000000000)) by (unfold int64; lia).
    replace (ts - q * 1000000000) with r by lia.
    rewrite (wrap64_small r) by (unfold int64; lia).
    destruct (r <? 0) eqn:Cr; unfold Time.UnixNano; simpl.
    + apply Z.ltb_lt in Cr.
      rewrite (wrap64_small (0 + q - 1)) by (unfold int64; lia).
      rewrite (wrap64_small (r + 1000000000)) by (unfold int64; lia).
      rewrite wrap64_add_l. split; [|lia].
      replace ((0 + q - 1) * 1000000000 + (r + 1000000000)) with ts by lia.
      by apply wrap64_small.
    + apply Z.ltb_ge in Cr. rewrite wrap64_add_l. split; [|lia].
      replace ((0 + q) * 1000000000 + r) with ts by lia.
      by apply wrap64_small.
  - apply orb_false_iff in C as [C1 C2].
    apply Z.ltb_ge in C1. apply Z.leb_gt in C2.
    unfold Time.UnixNano. simpl. split; [|lia].
    rewrite wrap64_add_l. replace (0 * 1000000000 + ts) with ts by lia.
    by apply wrap64_small.
Qed.

End TimeFacts.

(** ** Write *)

Section WriteFacts.

Context {R : Type}.

Implicit Types (σ : state) (meta : gmap string string) (pc : write_pc).
Implicit Types (conv : string → R → gmap string string → error + list EventMsg).

Lemma pending_range_events σ events : pending (range_events σ events) = events.
Proof. by destruct events. Qed.

(** Once [Write] has returned no schedule makes it enqueue anything. *)
Lemma Write_run_returned sched :
  Write_run sched WriteReturned = (WriteReturned, []).
Proof. induction sched as [|t sched IH]; [done|]. simpl. exact IH. Qed.

(** What a call enqueues is, in order, a front part of what it had to
    deliver; the rest is pending, or was dropped when the call returned. *)
Lemma Write_run_prefix sched pc :
  ∃ dropped,
    pending pc =
      enqueued (Write_run sched pc).2 ++ pending (Write_run sched pc).1 ++ dropped ∧
    (dropped ≠ [] → (Write_run sched pc).1 = WriteReturned).
Proof.
  revert pc. induction sched as [|t sched IH]; intros pc.
  - exists []. simpl. by rewrite app_nil_r.
  - simpl.
    destruct (Write_select _ _ _ _ pc) as [[[σ' pc'] l]|] eqn:E; [|apply IH].
    destruct pc as [c ev rest|]; [|done]. simpl in E.
    destruct (wt_pick t).
    + destruct (wt_ctx_done t); [|done]. injection E as <- <- <-.
      rewrite Write_run_returned. by exists (ev :: rest).
    + destruct (Chan.is_closed _ _); [|done]. injection E as <- <- <-.
      rewrite Write_run_returned. by exists (ev :: rest).
    + destruct (wt_receiver t); [|done]. injection E as <- <- <-.
      destruct (IH (range_events (wt_state t) rest)) as (dropped & Hp & Hd).
      rewrite pending_range_events in Hp.
      destruct (Write_run sched _) as [pc'' l']. simpl in *.
      exists dropped. by rewrite Hp at 1.
Qed.

Lemma Write_call_subscribe conv σ (rsp : R) meta :
  Write_call conv σ (SubscribeResponseMsg rsp) meta =
    match conv (default "default" (meta !! "subscription-name")) rsp meta with
    | inl err =>
        (σ, WriteReturned,
         [Converted (default "default" (meta !! "subscription-name"));
          ConvertFailed err])
    | inr events =>
        (σ, range_events σ events,
         [Converted (default "default" (meta !! "subscription-name"))])
    end.
Proof.
  unfold Write_call. by destruct (meta !! "subscription-name") as [subName|].
Qed.

(** C8.  For a SubscribeResponse the converter is called with the value
    of the metadata key ["subscription-name"] when the key is there and
    with ["default"] when it is not, and with no other name: [Write]
    behaves alike with any two converters that agree on that call. *)
Theorem Write_measurement_name conv conv' σ (rsp : R) meta sched :
  conv' (default "default" (meta !! "subscription-name")) rsp meta =
    conv (default "default" (meta !! "subscription-name")) rsp meta →
  (Write conv σ (SubscribeResponseMsg rsp) meta sched).2 !! 0 =
    Some (Converted (default "default" (meta !! "subscription-name"))) ∧
  Write conv' σ (SubscribeResponseMsg rsp) meta sched =
    Write conv σ (SubscribeResponseMsg rsp) meta sched.
Proof.
  intros E. unfold Write. rewrite !Write_call_subscribe, E.
  destruct (conv _ rsp meta) as [err|events]; split; try done;
    by destruct (Write_run sched _).
Qed.

(** C10.  A nil message, a message that is not a SubscribeResponse, and a
    SubscribeResponse the converter rejects all make [Write] return at
    once, under every schedule: the state is the one it was called in,
    nothing is enqueued, and the call has no result in which an error
    could be passed. *)
Theorem Write_ignores_unsupported conv σ (rsp : Message R) meta sched :
  rsp = NilMessage ∨ rsp = OtherMessage ∨
  (∃ r err, rsp = SubscribeResponseMsg r ∧
            conv (default "default" (meta !! "subscription-name")) r meta = inl err) →
  ∃ l, Write conv σ rsp meta sched = (σ, WriteReturned, l) ∧ enqueued l = [].
Proof.
  unfold Write. intros [-> | [-> | (r & err & -> & E)]].
  - exists []. simpl. by rewrite Write_run_returned.
  - exists []. simpl. by rewrite Write_run_returned.
  - rewrite Write_call_subscribe, E, Write_run_returned. by eexists.
Qed.

(** C4 (as the code has it).  Delivery of one event is decided by which
    case of the [select] is taken, among those that are ready and with
    no priority between them.  The cancellation case can be taken when the context is
    done, the reset case when the channel read from [i.reset] is closed;
    either makes [Write] return without enqueuing the event.  The send
    case can be taken when a worker receives; it enqueues the event and
    goes on with the next.  Nothing else can happen.  A call that has
    returned enqueues nothing more, so over a whole call the events
    enqueued are a front part of the batch and the others are dropped;
    in no case is there an error for the caller. *)
Theorem Write_delivery_is_a_race σ ctx_done receiver c ev rest :
  (ctx_done = true →
   Write_select σ ctx_done receiver WriteCtxDone (WriteSelect c ev rest)
     = Some (σ, WriteReturned, [])) ∧
  (Chan.is_closed c (chans σ) = true →
   Write_select σ ctx_done receiver WriteResetFired (WriteSelect c ev rest)
     = Some (σ, WriteReturned, [])) ∧
  (receiver = true →
   Write_select σ ctx_done receiver WriteSent (WriteSelect c ev rest)
     = Some (σ, range_events σ rest, [Enqueued ev])) ∧
  (∀ k r,
     Write_select σ ctx_done receiver k (WriteSelect c ev rest) = Some r →
     (k = WriteCtxDone ∧ ctx_done = true ∧ r = (σ, WriteReturned, [])) ∨
     (k = WriteResetFired ∧ Chan.is_closed c (chans σ) = true
        ∧ r = (σ, WriteReturned, [])) ∨
     (k = WriteSent ∧ receiver = true
        ∧ r = (σ, range_events σ rest, [Enqueued ev]))) ∧
  (∀ sched, Write_run sched WriteReturned = (WriteReturned, [])) ∧
  (∀ sched, ∃ dropped,
     ev :: rest =
       enqueued (Write_run sched (WriteSelect c ev rest)).2
       ++ pending (Write_run sched (WriteSelect c ev rest)).1 ++ dropped ∧
     (dropped ≠ [] →
      (Write_run sched (WriteSelect c ev rest)).1 = WriteReturned)).
Proof.
  split_and!.
  - by intros ->.
  - simpl. by intros ->.
  - by intros ->.
  - intros k r. simpl.
    destruct k; [destruct ctx_done | destruct (Chan.is_closed _ _)
                 | destruct receiver]; intros E; simplify_eq; auto 10.
  - apply Write_run_returned.
  - intros sched. apply (Write_run_prefix sched (WriteSelect c ev rest)).
Qed.

End WriteFacts.

Lemma Write_measurement_name_witness :
  picky (default "default" (sample_meta !! "subscription-name")) () sample_meta
  = rejecting (default "default" (sample_meta !! "subscription-name")) () sample_meta ∧
  (Write rejecting newOutput (SubscribeResponseMsg ()) sample_meta []).2 !! 0
  = Some (Converted "sub1") ∧
  Write picky newOutput (SubscribeResponseMsg ()) sample_meta []
  = Write rejecting newOutput (SubscribeResponseMsg ()) sample_meta [].
Proof.
  split; [reflexivity|].
  exact (Write_measurement_name rejecting picky newOutput () sample_meta []
           eq_refl).
Defined.

Lemma Write_ignores_unsupported_witness :
  (SubscribeResponseMsg () = NilMessage ∨ SubscribeResponseMsg () = OtherMessage ∨
   ∃ r err, SubscribeResponseMsg () = SubscribeResponseMsg r ∧
            rejecting (default "default" ((∅ : gmap string string) !! "subscription-name"))
                      r ∅ = inl err) ∧
  ∃ l, Write rejecting sample_up (SubscribeResponseMsg ()) ∅ []
         = (sample_up, WriteReturned, l) ∧ enqueued l = [].
Proof.
  assert (SubscribeResponseMsg () = NilMessage ∨
          SubscribeResponseMsg () = OtherMessage ∨
          ∃ r err, SubscribeResponseMsg () = SubscribeResponseMsg r ∧
            rejecting (default "default" ((∅ : gmap string string) !! "subscription-name"))
                      r ∅ = inl err) as H.
  { right. right. exists (), "unsupported". split; reflexivity. }
  split; [exact H|].
  exact (Write_ignores_unsupported rejecting sample_up (SubscribeResponseMsg ()) ∅ [] H).
Defined.

(** C4 as the spec words it fails: with the context done and a worker
    receiving at the same moment, the send case is ready too; when the
    runtime takes it the event is enqueued and [Write] goes on. *)
Lemma send_taken_though_cancelled :
  Write_select sample_up true true WriteSent
    (WriteSelect 0 sample_event [sample_event])
  = Some (sample_up, WriteSelect 0 sample_event [], [Enqueued sample_event]) ∧
  ¬ cancellation_wins.
Proof.
  split; [reflexivity|]. intros H.
  by specialize (H sample_up true WriteSent 0 sample_event [sample_event] _ eq_refl).
Qed.

Lemma Write_delivery_is_a_race_witness :
  Chan.is_closed 0 (chans sample_mid) = true ∧
  Write_select sample_mid false false WriteResetFired
    (WriteSelect 0 sample_event [sample_event])
  = Some (sample_mid, WriteReturned, []).
Proof.
  split; [reflexivity|].
  exact (proj1 (proj2 (Write_delivery_is_a_race sample_mid false false 0
                         sample_event [sample_event])) eq_refl).
Defined.

(** ** Writer workers *)

Section WorkerFacts.

Implicit Types (σ : state) (e : worker_env) (pc : worker_pc) (p : phase).
Implicit Types (l : list worker_label).

Lemma accepts_app p l1 l2 :
  accepts p (l1 ++ l2) = accepts p l1 ≫= λ p', accepts p' l2.
Proof.
  revert p. induction l1 as [|x l1 IH]; intros p; [done|]. simpl.
  destruct (phase_step p x) as [p1|]; [apply IH | done].
Qed.

(** A step of the worker is a move of the life cycle. *)
Lemma worker_step_accepts σ e k pc σ' pc' l :
  worker_step σ e k pc = Some (σ', pc', l) →
  σ' = σ ∧ accepts (phase_of pc) l = Some (phase_of pc').
Proof.
  destruct pc as [[|]|c|writer c|]; simpl; intros E.
  - by simplify_eq.
  - by simplify_eq.
  - destruct (Chan.is_closed c (chans σ)); by simplify_eq.
  - destruct k.
    + destruct (we_ctx_done e); simplify_eq. simpl. by rewrite Nat.eqb_refl.
    + destruct (we_event e); simplify_eq. simpl. by rewrite Nat.eqb_refl.
    + destruct (Chan.is_closed c (chans σ)); simplify_eq. simpl.
      by rewrite Nat.eqb_refl.
    + destruct (we_write_err e); simplify_eq. simpl. by rewrite Nat.eqb_refl.
  - done.
Qed.

Lemma worker_run_accepts sched pc :
  accepts (phase_of pc) (worker_run sched pc).2
  = Some (phase_of (worker_run sched pc).1).
Proof.
  revert pc. induction sched as [|t sched IH]; intros pc; [done|]. simpl.
  destruct (worker_step _ _ _ pc) as [[[σ' pc'] l]|] eqn:E; [|apply IH].
  destruct (worker_step_accepts _ _ _ _ _ _ _ E) as [_ A].
  specialize (IH pc'). destruct (worker_run sched pc') as [pc'' l']. simpl in *.
  by rewrite accepts_app, A.
Qed.

(** Along an accepted trace the handles held change as the phase says. *)
Lemma accepts_live_handles p l p' :
  accepts p l = Some p' → live_handles l = (holds p' - holds p)%Z.
Proof.
  revert p. induction l as [|x l IH]; intros p E; simpl in E.
  - injection E as <-. simpl. lia.
  - destruct (phase_step p x) as [p1|] eqn:E1; [|done]. simpl in E.
    specialize (IH _ E).
    destruct p, x; simpl in E1; try done;
      try (destruct (Nat.eqb _ _); [|done]); simplify_eq; simpl in *; lia.
Qed.

Lemma holds_bounds p : (0 ≤ holds p ≤ 1)%Z.
Proof. destruct p; simpl; lia. Qed.

Lemma worker_run_app s1 s2 pc :
  worker_run (s1 ++ s2) pc
  = ((worker_run s2 (worker_run s1 pc).1).1,
     (worker_run s1 pc).2 ++ (worker_run s2 (worker_run s1 pc).1).2).
Proof.
  revert pc. induction s1 as [|t s1 IH]; intros pc.
  - simpl. by destruct (worker_run s2 pc).
  - simpl. destruct (worker_step _ _ _ pc) as [[[σ' pc'] l]|]; [|apply IH].
    rewrite IH. destruct (worker_run s1 pc') as [pc1 l1]. simpl.
    by rewrite app_assoc.
Qed.

(** A worker that waits on an open channel stays where it is. *)
Lemma worker_run_waiting sched c :
  Forall (λ t, Chan.is_closed c (chans (wk_state t)) = false) sched →
  worker_run sched (WorkerWaiting c) = (WorkerWaiting c, []).
Proof.
  induction 1 as [|t sched Ht _ IH]; [done|]. simpl. by rewrite Ht, IH.
Qed.

(** C5 (as the code has it).  The first turn of a worker, whatever the
    signals are, acquires its writer and puts it in the [select].  A
    worker in its [select] that takes the reset case comes back to
    [START], reads [i.startSig] and stays there, holding no writer, for
    as long as that channel is open; at the first turn that finds it
    closed it asks the client again for a writer, with the configured org
    and bucket, and is back in the [select].  The handle it holds is the
    one the client returned at that moment, whichever that is.  Every
    trace of a worker follows the life cycle of the spec, and at each
    point of it the worker holds one writer handle or none. *)
Theorem worker_restart_discipline sched :
  (∀ t,
     worker (t :: sched)
     = ((worker_run sched
           (WorkerSelect (we_WriteAPI (wk_env t)) (reset (out (wk_state t))))).1,
        Acquired (we_WriteAPI (wk_env t)) (Org (Cfg (out (wk_state t))))
                 (Bucket (Cfg (out (wk_state t))))
          :: (worker_run sched
                (WorkerSelect (we_WriteAPI (wk_env t))
                   (reset (out (wk_state t))))).2)) ∧
  (∀ writer c t1 t2 blocked t3,
     (worker sched).1 = WorkerSelect writer c →
     wk_pick t1 = WorkerReset →
     Chan.is_closed c (chans (wk_state t1)) = true →
     Forall (λ t, Chan.is_closed (startSig (out (wk_state t2)))
                    (chans (wk_state t)) = false) blocked →
     worker (sched ++ t1 :: t2 :: blocked)
     = (WorkerWaiting (startSig (out (wk_state t2))),
        (worker sched).2 ++ [ResetSeen writer]) ∧
     (Chan.is_closed (startSig (out (wk_state t2))) (chans (wk_state t3)) = true →
      worker (sched ++ t1 :: t2 :: blocked ++ [t3])
      = (WorkerSelect (we_WriteAPI (wk_env t3)) (reset (out (wk_state t3))),
         (worker sched).2
           ++ [ResetSeen writer;
               Recovered (startSig (out (wk_state t2)));
               Acquired (we_WriteAPI (wk_env t3))
                        (Org (Cfg (out (wk_state t3))))
                        (Bucket (Cfg (out (wk_state t3))))]))) ∧
  (∀ σ e k,
     worker_step σ e k (WorkerStart true)
     = Some (σ, WorkerSelect (we_WriteAPI e) (reset (out σ)),
             [Acquired (we_WriteAPI e) (Org (Cfg (out σ))) (Bucket (Cfg (out σ)))])) ∧
  (∀ σ e writer c,
     Chan.is_closed c (chans σ) = true →
     worker_step σ e WorkerReset (WorkerSelect writer c)
     = Some (σ, WorkerStart false, [ResetSeen writer])) ∧
  (∀ σ e k,
     worker_step σ e k (WorkerStart false)
     = Some (σ, WorkerWaiting (startSig (out σ)), [])) ∧
  (∀ σ e k c,
     worker_step σ e k (WorkerWaiting c)
     = if Chan.is_closed c (chans σ)
       then Some (σ, WorkerSelect (we_WriteAPI e) (reset (out σ)),
                  [Recovered c;
                   Acquired (we_WriteAPI e) (Org (Cfg (out σ))) (Bucket (Cfg (out σ)))])
       else None) ∧
  accepts Fresh (worker sched).2 = Some (phase_of (worker sched).1) ∧
  (∀ l, l `prefix_of` (worker sched).2 → (0 ≤ live_handles l ≤ 1)%Z).
Proof.
  split_and!; try done.
  - intros t. unfold worker. simpl. by destruct (worker_run sched _).
  - intros writer c t1 t2 blocked t3 Hpc Hk Hc Hb.
    assert (worker_run (t1 :: t2 :: blocked) (WorkerSelect writer c)
            = (WorkerWaiting (startSig (out (wk_state t2))), [ResetSeen writer]))
      as Hwait.
    { simpl. rewrite Hk. simpl. rewrite Hc. simpl.
      by rewrite (worker_run_waiting _ _ Hb). }
    split.
    + unfold worker in *. by rewrite worker_run_app, Hpc, Hwait.
    + intros Hs. unfold worker in *.
      rewrite worker_run_app, Hpc.
      change (t1 :: t2 :: blocked ++ [t3]) with ((t1 :: t2 :: blocked) ++ [t3]).
      rewrite worker_run_app, Hwait. simpl. by rewrite Hs.
  - intros σ e writer c H. simpl. by rewrite H.
  - apply (worker_run_accepts sched (WorkerStart true)).
  - intros l [l' El].
    pose proof (worker_run_accepts sched (WorkerStart true)) as A.
    unfold worker in El. rewrite El, accepts_app in A. simpl in A.
    destruct (accepts Fresh l) as [p1|] eqn:A1; [|done].
    rewrite (accepts_live_handles _ _ _ A1). simpl.
    pose proof (holds_bounds p1). lia.
Qed.

(** C7.  A worker that takes an event off the channel writes, through
    the writer it holds, the point whose measurement, tags and fields
    are the event's name, tags and values, and whose time is the event's
    timestamp counted in nanoseconds from the unix epoch. *)
Theorem worker_point_of_event σ e writer c ev :
  we_event e = Some ev →
  int64 (Timestamp ev) →
  ∃ pt,
    worker_step σ e WorkerEvent (WorkerSelect writer c)
    = Some (σ, WorkerSelect writer (reset (out σ)), [WritePoint writer pt]) ∧
    measurement pt = Name ev ∧
    tags pt = Tags ev ∧
    fields pt = Values ev ∧
    Time.UnixNano (time pt) = Timestamp ev ∧
    (0 ≤ Time.nsec (time pt) < 1000000000)%Z.
Proof.
  intros He H64. simpl. rewrite He. eexists. split; [done|]. simpl.
  destruct (UnixNano_Unix _ H64) as [U B].
  split; [done|]. split; [done|]. split; [done|]. split; [exact U | exact B].
Qed.

Lemma worker_point_of_event_witness :
  we_event sample_env = Some sample_event ∧
  int64 (Timestamp sample_event) ∧
  ∃ pt,
    worker_step sample_up sample_env WorkerEvent (WorkerSelect 7 0)
    = Some (sample_up, WorkerSelect 7 0, [WritePoint 7 pt]) ∧
    measurement pt = "ifcounters" ∧
    Time.UnixNano (time pt) = 1600000000123456789%Z.
Proof.
  assert (int64 (Timestamp sample_event)) as H64 by (unfold int64; simpl; lia).
  split; [reflexivity|]. split; [exact H64|].
  destruct (worker_point_of_event sample_up sample_env 7 0 sample_event eq_refl H64)
    as (pt & E & M & _ & _ & U & _).
  exists pt. split; [exact E|]. split; [exact M | exact U].
Defined.

Lemma worker_restart_discipline_witness :
  (worker [sample_turn sample_up WorkerEvent]).1 = WorkerSelect 7 0 ∧
  wk_pick (sample_turn sample_down WorkerReset) = WorkerReset ∧
  Chan.is_closed 0 (chans (wk_state (sample_turn sample_down WorkerReset))) = true ∧
  Forall (λ t, Chan.is_closed
                 (startSig (out (wk_state (sample_turn sample_down WorkerCtxDone))))
                 (chans (wk_state t)) = false)
         [sample_cancelled_turn] ∧
  worker ([sample_turn sample_up WorkerEvent]
            ++ sample_turn sample_down WorkerReset
            :: sample_turn sample_down WorkerCtxDone
            :: [sample_cancelled_turn])
  = (WorkerWaiting 2, [Acquired 7 "" ""; ResetSeen 7]) ∧
  worker ([sample_turn sample_up WorkerEvent]
            ++ sample_turn sample_down WorkerReset
            :: sample_turn sample_down WorkerCtxDone
            :: [sample_cancelled_turn] ++ [sample_turn sample_recovered WorkerEvent])
  = (WorkerSelect 7 3,
     [Acquired 7 "" ""; ResetSeen 7; Recovered 2; Acquired 7 "" ""]).
Proof.
  assert (Forall (λ t, Chan.is_closed
                         (startSig (out (wk_state (sample_turn sample_down WorkerCtxDone))))
                         (chans (wk_state t)) = false)
                 [sample_cancelled_turn]) as Hb by (repeat constructor).
  split; [reflexivity|]. split; [reflexivity|]. split; [reflexivity|].
  split; [exact Hb|].
  destruct (proj1 (proj2 (worker_restart_discipline
                            [sample_turn sample_up WorkerEvent]))
              7 0 (sample_turn sample_down WorkerReset)
              (sample_turn sample_down WorkerCtxDone) [sample_cancelled_turn]
              (sample_turn sample_recovered WorkerEvent)
              eq_refl eq_refl eq_refl Hb) as [H1 H2].
  split; [exact H1 | exact (H2 eq_refl)].
Defined.

(** C5 as the spec words it fails: the worker does not make its writer,
    it asks the client for it with the same org and bucket as before, and
    a client that answers with the handle it gave before gives the worker
    after the restart the very handle it held before it. *)
Lemma handle_reacquired_not_fresh :
  health sample_up (ProbeFailed "down") = Some (sample_down, Some "down") ∧
  health sample_down NoReport = Some (sample_recovered, None) ∧
  worker [sample_turn sample_up WorkerEvent;
          sample_turn sample_down WorkerReset;
          sample_turn sample_down WorkerEvent;
          sample_turn sample_recovered WorkerEvent]
  = (WorkerSelect 7 3,
     [Acquired 7 "" ""; ResetSeen 7; Recovered 2; Acquired 7 "" ""]) ∧
  ¬ reacquired_handle_is_fresh.
Proof.
  split; [reflexivity|]. split; [reflexivity|]. split; [reflexivity|].
  intros H.
  by apply (H [sample_turn sample_up WorkerEvent;
               sample_turn sample_down WorkerReset;
               sample_turn sample_down WorkerEvent;
               sample_turn sample_recovered WorkerEvent]
              [] 7 "" "" [ResetSeen 7; Recovered 2] 7 "" "" [] eq_refl).
Qed.

End WorkerFacts.

(** * Further properties of the program *)

(** ** The monitor loop *)

Section MonitorFacts.

Implicit Types (σ : state) (hist : list HealthOutcome).

Lemma health_seq_total hist σ :
  wf σ → ∃ σ', health_seq hist σ = Some σ' ∧ wf σ'.
Proof.
  revert σ. induction hist as [|o hist IH]; intros σ W; [by exists σ|].
  destruct (health_total σ o W) as (σ1 & e & E). simpl. rewrite E. simpl.
  apply IH. by eapply health_wf.
Qed.


Lemma healthCheck_cancelled hist rest σ :
  healthCheck ((Tick <$> hist) ++ MonitorCancelled :: rest) σ
  = (λ σ', (σ', true)) <$> health_seq hist σ.
Proof.
  revert σ. induction hist as [|o hist IH]; intros σ; [done|]. simpl.
  destruct (health σ o) as [[σ1 e]|]; [apply IH | done].
Qed.



(** X2.  Once the monitor takes the cancellation case it returns: the
    state is the one left by the ticks before it, and no tick that comes
    later makes it probe again. *)
Theorem monitor_stops_at_cancellation σ hist rest :
  at_point σ [] →
  ∃ σ', health_seq hist σ = Some σ' ∧
        healthCheck ((Tick <$> hist) ++ MonitorCancelled :: rest) σ
        = Some (σ', true).
Proof.
  intros P. pose proof (at_point_inv _ _ P) as W. simpl in W.
  destruct (health_seq_total hist σ W) as (σ' & E & _).
  exists σ'. by rewrite healthCheck_cancelled, E.
Qed.

Lemma monitor_stops_at_cancellation_witness :
  at_point sample_up [] ∧
  ∃ σ', health_seq [ProbeFailed "down"] sample_up = Some σ' ∧
        healthCheck ((Tick <$> [ProbeFailed "down"])
                       ++ MonitorCancelled :: [Tick NoReport; Tick NoReport])
          sample_up = Some (σ', true).
Proof.
  split; [exact at_point_sample_up|].
  exact (monitor_stops_at_cancellation sample_up [ProbeFailed "down"]
           [Tick NoReport; Tick NoReport] at_point_sample_up).
Defined.

End MonitorFacts.

(** ** Configuration as [Init] leaves it *)

Section ConfigFacts.

Local Open Scope Z_scope.

Implicit Types (c : Config) (σ : state).

Lemma Init_Cfg c probes σ :
  Cfg (out (Init (c, None) probes σ).1.1) = withDefaults c.
Proof. unfold Init. simpl. by rewrite CRCLIENT_Cfg. Qed.

Lemma CRCLIENT_clients probes iopts σ cl :
  NewClient cl ∈ (CRCLIENT probes iopts σ).1.2 → cl_opts cl = iopts.
Proof.
  revert σ. induction probes as [|o probes IH]; intros σ; simpl.
  - by intros ?%elem_of_nil.
  - destruct (health _ o) as [[σ2 [e|]]|] eqn:E; simpl.
    + specialize (IH σ2). destruct (CRCLIENT probes iopts σ2) as [[σ3 tr] st].
      simpl in *. rewrite !elem_of_cons. intros [H|[H|H]]; [|done|by apply IH].
      by injection H as ->.
    + rewrite !elem_of_cons. intros [H|[H|[H|[H|H]]]]; try done.
      * by injection H as ->.
      * by apply elem_of_nil in H.
    + rewrite elem_of_cons. intros [H|H]; [by injection H as ->|].
      by apply elem_of_nil in H.
Qed.

(** X3.  The defaults are a fixed point: in a configuration that went
    through them none of the four fields is zero, and going through them
    again changes nothing. *)
Theorem withDefaults_idempotent c :
  withDefaults (withDefaults c) = withDefaults c ∧
  URL (withDefaults c) ≠ "" ∧
  BatchSize (withDefaults c) ≠ 0%N ∧
  FlushTimer (withDefaults c) ≠ 0 ∧
  HealthCheckPeriod (withDefaults c) ≠ 0.
Proof.
  assert (URL (withDefaults c) ≠ "" ∧ BatchSize (withDefaults c) ≠ 0%N ∧
          FlushTimer (withDefaults c) ≠ 0 ∧ HealthCheckPeriod (withDefaults c) ≠ 0)
    as (HU & HB & HF & HH).
  { unfold withDefaults. simpl. split_and!.
    - by destruct (String.eqb_spec (URL c) "").
    - by destruct (N.eqb_spec (BatchSize c) 0).
    - by destruct (Z.eqb_spec (FlushTimer c) 0).
    - by destruct (Z.eqb_spec (HealthCheckPeriod c) 0). }
  split_and!; try done.
  unfold withDefaults at 1.
  apply String.eqb_neq in HU. apply N.eqb_neq in HB.
  apply Z.eqb_neq in HF. apply Z.eqb_neq in HH.
  rewrite HU, HB, HF, HH. by destruct (withDefaults c).
Qed.

(** X4.  The monitor that [Init] spawns panics on its first statement
    exactly when the decoded health-check period is negative: zero is
    replaced by the default, a negative period is not, and a ticker
    cannot be made with it. *)
Theorem monitor_ticker_after_Init c probes σ :
  (HealthCheckPeriod c < 0 →
   ∀ evs, healthCheck_ticker evs (Init (c, None) probes σ).1.1 = None) ∧
  (0 ≤ HealthCheckPeriod c →
   ∀ evs, healthCheck_ticker evs (Init (c, None) probes σ).1.1
          = healthCheck evs (Init (c, None) probes σ).1.1).
Proof.
  unfold healthCheck_ticker. rewrite Init_Cfg. unfold withDefaults. simpl.
  split; intros H evs.
  - destruct (Z.eqb_spec (HealthCheckPeriod c) 0); [lia|].
    by destruct (Z.ltb_spec 0 (HealthCheckPeriod c)); [lia|].
  - destruct (Z.eqb_spec (HealthCheckPeriod c) 0); [done|].
    by destruct (Z.ltb_spec 0 (HealthCheckPeriod c)); [|lia].
Qed.

Lemma monitor_ticker_after_Init_witness :
  HealthCheckPeriod sample_negative_period < 0 ∧
  healthCheck_ticker [Tick NoReport]
    (Init (sample_negative_period, None) [NoReport] newOutput).1.1 = None.
Proof.
  split; [reflexivity|].
  exact (proj1 (monitor_ticker_after_Init sample_negative_period [NoReport] newOutput)
           eq_refl [Tick NoReport]).
Defined.

(** X5.  Every client [Init] makes gets the same options.  Their batch
    size is never zero.  Their flush interval is the flush timer in whole
    milliseconds: 10000 for the default, zero for a timer below one
    millisecond, and for a timer of minus one millisecond or less the
    huge unsigned number the conversion wraps to. *)
Theorem Init_client_options c probes σ :
  (∀ cl, NewClient cl ∈ (Init (c, None) probes σ).1.2 →
         cl_opts cl = clientOptions (withDefaults c)) ∧
  opt_BatchSize (clientOptions (withDefaults c)) ≠ 0%N ∧
  (FlushTimer c = 0 →
   opt_FlushInterval (clientOptions (withDefaults c)) = 10000) ∧
  (0 < FlushTimer c < 2 ^ 63 →
   opt_FlushInterval (clientOptions (withDefaults c)) = FlushTimer c `div` 1000000) ∧
  (- 2 ^ 63 ≤ FlushTimer c ≤ - 1000000 →
   opt_FlushInterval (clientOptions (withDefaults c))
   = 2 ^ 64 - (- FlushTimer c) `div` 1000000).
Proof.
  split_and!.
  - intros cl H. unfold Init in H. simpl in H.
    by apply CRCLIENT_clients in H.
  - simpl. by destruct (N.eqb_spec (BatchSize c) 0).
  - intros H. simpl. by rewrite H.
  - intros H. simpl. destruct (Z.eqb_spec (FlushTimer c) 0); [lia|].
    unfold flushIntervalMs, Millisecond.
    rewrite Z.quot_div_nonneg by lia.
    apply Z.mod_small. split; [apply Z.div_pos; lia|].
    apply Z.div_lt_upper_bound; lia.
  - intros H. simpl. destruct (Z.eqb_spec (FlushTimer c) 0); [lia|].
    unfold flushIntervalMs, Millisecond.
    replace (FlushTimer c) with (- (- FlushTimer c)) at 1 by lia.
    rewrite Z.quot_opp_l by lia. rewrite Z.quot_div_nonneg by lia.
    assert (1 ≤ (- FlushTimer c) `div` 1000000 < 2 ^ 63).
    { split; [apply Z.div_le_lower_bound; lia|].
      apply Z.div_lt_upper_bound; lia. }
    rewrite <- (Z.mod_add _ 1) by lia. rewrite Z.mod_small; lia.
Qed.

Lemma Init_client_options_witness :
  - 2 ^ 63 ≤ FlushTimer sample_negative_period ≤ - 1000000 ∧
  opt_FlushInterval (clientOptions (withDefaults sample_negative_period))
  = 18446744073709551611.
Proof.
  split; [simpl; lia|].
  exact (proj2 (proj2 (proj2 (proj2
           (Init_client_options sample_negative_period [] newOutput))))
           ltac:(simpl; lia)).
Defined.

End ConfigFacts.

(** ** Who is released by a signal, and when *)

Section ReleaseFacts.

Implicit Types (σ : state) (o : HealthOutcome) (hist : list HealthOutcome).
Implicit Types (c : nat).

Lemma close_keeps_closed c0 c (h h' : Chan.heap) :
  Chan.close c0 h = Some h' →
  Chan.is_closed c h = true → Chan.is_closed c h' = true.
Proof.
  unfold Chan.close, Chan.is_closed.
  destruct (h !! c0) as [ch0|] eqn:E0; [|done].
  destruct (Chan.closed ch0) eqn:Ecl; [done|]. intros [= <-] H.
  destruct (decide (c0 = c)) as [->|Hne].
  - rewrite list_lookup_insert_eq; [done | by eapply lookup_lt_Some].
  - by rewrite list_lookup_insert_ne.
Qed.

Lemma make_keeps_closed r c (h : Chan.heap) :
  Chan.is_closed c h = true → Chan.is_closed c (Chan.make r h).2 = true.
Proof.
  unfold Chan.is_closed, Chan.make. simpl.
  destruct (h !! c) as [ch|] eqn:E; [|done].
  rewrite lookup_app_l; [by rewrite E | by eapply lookup_lt_Some].
Qed.

Lemma exec_keeps_closed s σ σ' c :
  exec s σ = Some σ' →
  Chan.is_closed c (chans σ) = true → Chan.is_closed c (chans σ') = true.
Proof.
  destruct s; simpl; intros E H.
  - destruct (Chan.close _ _) as [h'|] eqn:Ec; simplify_eq/=.
    by eapply close_keeps_closed.
  - simplify_eq/=. by apply (make_keeps_closed Chan.Reset).
  - by simplify_eq/=.
  - destruct (Chan.close _ _) as [h'|] eqn:Ec; simplify_eq/=.
    by eapply close_keeps_closed.
  - simplify_eq/=. by apply (make_keeps_closed Chan.StartSig).
Qed.

Lemma exec_all_keeps_closed ss σ σ' c :
  exec_all ss σ = Some σ' →
  Chan.is_closed c (chans σ) = true → Chan.is_closed c (chans σ') = true.
Proof.
  revert σ. induction ss as [|s ss IH]; intros σ E H; simpl in E.
  - by injection E as <-.
  - destruct (exec s σ) as [σ1|] eqn:E1; [|done].
    eapply IH; [done|]. by eapply exec_keeps_closed.
Qed.

Lemma health_keeps_closed σ o σ' err c :
  health σ o = Some (σ', err) →
  Chan.is_closed c (chans σ) = true → Chan.is_closed c (chans σ') = true.
Proof.
  unfold health. destruct (health_body _ _) as [ss e]. intros E.
  destruct (exec_all ss σ) as [σ1|] eqn:E1; [|done]. injection E as <- _.
  by eapply exec_all_keeps_closed.
Qed.

(** X6.  A signal that has fired stays fired: no call of [health], in any
    state, reopens or reuses a closed channel.  So a worker whose reset
    case, or whose wait for recovery, has become ready stays ready until
    it runs, however many probes come in between. *)
Theorem fired_signal_stays_fired hist σ σ' c :
  health_seq hist σ = Some σ' →
  Chan.is_closed c (chans σ) = true →
  Chan.is_closed c (chans σ') = true ∧
  (∀ e k, is_Some (worker_step σ' e k (WorkerWaiting c))) ∧
  (∀ e writer, is_Some (worker_step σ' e WorkerReset (WorkerSelect writer c))).
Proof.
  intros E H.
  assert (Chan.is_closed c (chans σ') = true) as H'.
  { revert σ E H. induction hist as [|o hist IH]; intros σ E H; simpl in E.
    - by injection E as <-.
    - destruct (health σ o) as [[σ1 e]|] eqn:E1; [|done].
      eapply IH; [done|]. by eapply health_keeps_closed. }
  split; [done|]. split; intros; simpl; rewrite H'; by eexists.
Qed.

Lemma fired_signal_stays_fired_witness :
  ∃ σ', health_seq [NoReport; ProbeFailed "down"] sample_up = Some σ' ∧
        Chan.is_closed 1 (chans sample_up) = true ∧
        Chan.is_closed 1 (chans σ') = true.
Proof.
  eexists. split; [reflexivity|]. split; [reflexivity|].
  exact (proj1 (fired_signal_stays_fired [NoReport; ProbeFailed "down"]
                  sample_up _ 1 eq_refl eq_refl)).
Defined.

(** A channel that is neither of the two current signals is left alone
    by [health], and does not become current again. *)
Lemma health_frozen σ o σ' err c ch :
  wf σ → health σ o = Some (σ', err) →
  chans σ !! c = Some ch →
  c ≠ reset (out σ) → c ≠ startSig (out σ) →
  chans σ' !! c = Some ch ∧ c ≠ reset (out σ') ∧ c ≠ startSig (out σ').
Proof.
  intros W E Hc Hr Hs.
  assert (c < length (chans σ)) as Lc by (by eapply lookup_lt_Some).
  destruct (succeeded o) eqn:Ho.
  - destruct (health_success _ _ W Ho) as (σ1 & E1 & _ & _ & Hr1 & Hs1 & Hc1).
    assert (σ1 = σ') as -> by congruence.
    rewrite Hc1, Hr1, Hs1. split_and!; [|done|lia].
    rewrite lookup_app_l by (by rewrite length_insert).
    by rewrite list_lookup_insert_ne.
  - destruct (health_failure _ _ W Ho) as (σ1 & e1 & E1 & _ & _ & Hs1 & Hr1 & Hc1).
    assert (σ1 = σ') as -> by congruence.
    rewrite Hc1, Hr1, Hs1. destruct (wasup (out σ)); [|done].
    split_and!; [|lia|done].
    rewrite lookup_app_l by (by rewrite length_insert).
    by rewrite list_lookup_insert_ne.
Qed.

Lemma health_seq_frozen hist σ σ' c ch :
  wf σ → health_seq hist σ = Some σ' →
  chans σ !! c = Some ch →
  c ≠ reset (out σ) → c ≠ startSig (out σ) →
  chans σ' !! c = Some ch.
Proof.
  revert σ. induction hist as [|o hist IH]; intros σ W E Hc Hr Hs; simpl in E.
  - by injection E as <-.
  - destruct (health σ o) as [[σ1 e]|] eqn:E1; [|done]. simpl in E.
    destruct (health_frozen _ _ _ _ _ _ W E1 Hc Hr Hs) as (Hc1 & Hr1 & Hs1).
    eapply IH; [by eapply health_wf|done..].
Qed.

Lemma startSig_closed_after hist σ σ' :
  wf σ → health_seq hist σ = Some σ' →
  Chan.is_closed (startSig (out σ)) (chans σ') = existsb succeeded hist.
Proof.
  revert σ. induction hist as [|o hist IH]; intros σ W E; simpl in E.
  - injection E as <-. destruct W as (_ & As & _).
    unfold Chan.is_closed. by rewrite As.
  - destruct (health σ o) as [[σ1 e]|] eqn:E1; [|done]. simpl in E.
    pose proof (health_wf _ _ _ _ W E1) as W1.
    pose proof W as (Ar & As & _).
    assert (startSig (out σ) < length (chans σ)) as Ls by (by eapply lookup_lt_Some).
    simpl. destruct (succeeded o) eqn:Ho; simpl.
    + destruct (health_success _ _ W Ho) as (σ2 & E2 & _ & _ & Hr2 & Hs2 & Hc2).
      assert (σ2 = σ1) as -> by congruence.
      unfold Chan.is_closed.
      rewrite (health_seq_frozen hist σ1 σ' (startSig (out σ))
                 (Chan.shut (Chan.open_chan Chan.StartSig)) W1 E); [done|..].
      * rewrite Hc2, lookup_app_l by (by rewrite length_insert).
        by rewrite list_lookup_insert_eq.
      * rewrite Hr2. by apply not_eq_sym, armed_distinct.
      * rewrite Hs2. lia.
    + destruct (health_failure _ _ W Ho) as (σ2 & e2 & E2 & _ & _ & Hs2 & _).
      assert (σ2 = σ1) as -> by congruence.
      rewrite <- Hs2. by apply IH.
Qed.

Lemma reset_closed_after hist σ σ' :
  wf σ → wasup (out σ) = true → health_seq hist σ = Some σ' →
  Chan.is_closed (reset (out σ)) (chans σ') = existsb failed hist.
Proof.
  revert σ. induction hist as [|o hist IH]; intros σ W Hw E; simpl in E.
  - injection E as <-. destruct W as (Ar & _).
    unfold Chan.is_closed. by rewrite Ar.
  - destruct (health σ o) as [[σ1 e]|] eqn:E1; [|done]. simpl in E.
    pose proof (health_wf _ _ _ _ W E1) as W1.
    pose proof W as (Ar & As & _).
    assert (reset (out σ) < length (chans σ)) as Lr by (by eapply lookup_lt_Some).
    simpl. unfold failed at 1. destruct (succeeded o) eqn:Ho; simpl.
    + destruct (health_success _ _ W Ho) as (σ2 & E2 & _ & Hw2 & Hr2 & _).
      assert (σ2 = σ1) as -> by congruence.
      rewrite <- Hr2. by apply IH.
    + destruct (health_failure _ _ W Ho) as (σ2 & e2 & E2 & _ & _ & Hs2 & Hr2 & Hc2).
      assert (σ2 = σ1) as -> by congruence. rewrite Hw in Hr2, Hc2.
      unfold Chan.is_closed.
      rewrite (health_seq_frozen hist σ1 σ' (reset (out σ))
                 (Chan.shut (Chan.open_chan Chan.Reset)) W1 E); [done|..].
      * rewrite Hc2, lookup_app_l by (by rewrite length_insert).
        by rewrite list_lookup_insert_eq.
      * rewrite Hr2. lia.
      * rewrite Hs2. by apply armed_distinct.
Qed.

(** X7.  A worker that reaches its wait for recovery between two calls of
    [health] is released by the first probe after that which succeeds,
    and by nothing else: after any run of probes it can go on exactly
    when one of them succeeded. *)
Theorem recovery_releases_waiting_worker σ hist σ' e k :
  at_point σ [] →
  health_seq hist σ = Some σ' →
  worker_step σ e k (WorkerStart false)
  = Some (σ, WorkerWaiting (startSig (out σ)), []) ∧
  Chan.is_closed (startSig (out σ)) (chans σ') = existsb succeeded hist ∧
  (is_Some (worker_step σ' e k (WorkerWaiting (startSig (out σ))))
   ↔ existsb succeeded hist = true).
Proof.
  intros P E. pose proof (at_point_inv _ _ P) as W. simpl in W.
  pose proof (startSig_closed_after hist σ σ' W E) as H.
  split; [done|]. split; [done|]. simpl. rewrite H.
  destruct (existsb succeeded hist); split; try done;
    try (intros _; by eexists); by intros [? ?].
Qed.

Lemma recovery_releases_waiting_worker_witness :
  at_point sample_up [] ∧
  (∃ σ', health_seq [ProbeFailed "down"; ProbeFailed "down"] sample_up = Some σ' ∧
         worker_step σ' sample_env WorkerEvent (WorkerWaiting 2) = None) ∧
  (∃ σ', health_seq [ProbeFailed "down"; NoReport] sample_up = Some σ' ∧
         is_Some (worker_step σ' sample_env WorkerEvent (WorkerWaiting 2))).
Proof.
  split; [exact at_point_sample_up|]. split.
  - eexists. split; [reflexivity|].
    pose proof (recovery_releases_waiting_worker sample_up
                  [ProbeFailed "down"; ProbeFailed "down"] _ sample_env WorkerEvent
                  at_point_sample_up eq_refl) as (_ & _ & H).
    destruct (worker_step _ sample_env WorkerEvent (WorkerWaiting 2)) eqn:E;
      [|reflexivity].
    exfalso. assert (false = true) as D by (apply H; by eexists). discriminate D.
  - eexists. split; [reflexivity|].
    exact (proj2 (proj2 (proj2 (recovery_releases_waiting_worker sample_up
                    [ProbeFailed "down"; NoReport] _ sample_env WorkerEvent
                    at_point_sample_up eq_refl))) eq_refl).
Defined.

(** X8.  Once the output has been up, whoever is blocked on the reset
    channel that is current between two calls of [health], a worker in
    its [select] or a call of [Write], can leave through the reset case
    after a run of probes exactly when one of them failed. *)
Theorem failure_releases_select σ hist σ' e writer ev rest :
  at_point σ [] →
  wasup (out σ) = true →
  health_seq hist σ = Some σ' →
  Chan.is_closed (reset (out σ)) (chans σ') = existsb failed hist ∧
  (is_Some (worker_step σ' e WorkerReset (WorkerSelect writer (reset (out σ))))
   ↔ existsb failed hist = true) ∧
  (is_Some (Write_select σ' false false WriteResetFired
              (WriteSelect (reset (out σ)) ev rest))
   ↔ existsb failed hist = true).
Proof.
  intros P Hw E. pose proof (at_point_inv _ _ P) as W. simpl in W.
  pose proof (reset_closed_after hist σ σ' W Hw E) as H.
  split; [done|]. simpl. rewrite H.
  destruct (existsb failed hist); split; split; try done;
    try (intros _; by eexists); by intros [? ?].
Qed.

Lemma failure_releases_select_witness :
  at_point sample_up [] ∧
  wasup (out sample_up) = true ∧
  ∃ σ', health_seq [NoReport; Report (Some "bad json")] sample_up = Some σ' ∧
        is_Some (Write_select σ' false false WriteResetFired
                   (WriteSelect 0 sample_event [])).
Proof.
  split; [exact at_point_sample_up|]. split; [reflexivity|].
  eexists. split; [reflexivity|].
  exact (proj2 (proj2 (proj2 (failure_releases_select sample_up
                  [NoReport; Report (Some "bad json")] _ sample_env 7 sample_event []
                  at_point_sample_up eq_refl eq_refl))) eq_refl).
Defined.

End ReleaseFacts.

(** ** Blocking *)

Section BlockingFacts.

Implicit Types (σ : state) (c : nat).

(** X9.  The wait for recovery has no cancellation case: a worker that
    waits on a channel takes no step and writes nothing as long as that
    channel is open, whatever else is ready, a cancelled context
    included. *)
Theorem waiting_worker_ignores_cancellation sched c :
  Forall (λ t, Chan.is_closed c (chans (wk_state t)) = false) sched →
  worker_run sched (WorkerWaiting c) = (WorkerWaiting c, []).
Proof.
  induction 1 as [|t sched Ht _ IH]; [done|]. simpl. by rewrite Ht, IH.
Qed.

Lemma waiting_worker_ignores_cancellation_witness :
  Forall (λ t, Chan.is_closed 2 (chans (wk_state t)) = false)
         [sample_cancelled_turn; sample_cancelled_turn] ∧
  we_ctx_done (wk_env sample_cancelled_turn) = true ∧
  worker_run [sample_cancelled_turn; sample_cancelled_turn] (WorkerWaiting 2)
  = (WorkerWaiting 2, []).
Proof.
  assert (Forall (λ t, Chan.is_closed 2 (chans (wk_state t)) = false)
                 [sample_cancelled_turn; sample_cancelled_turn]) as H
    by (repeat constructor).
  split; [exact H|]. split; [reflexivity|].
  exact (waiting_worker_ignores_cancellation _ 2 H).
Defined.

Lemma Write_run_no_receiver sched pc :
  Forall (λ t, wt_receiver t = false) sched →
  enqueued (Write_run sched pc).2 = [].
Proof.
  intros F. revert pc. induction F as [|t sched Ht _ IH]; intros pc; [done|].
  simpl. destruct pc as [c ev rest|]; simpl; [|apply IH].
  destruct (wt_pick t).
  - destruct (wt_ctx_done t); [|apply IH].
    specialize (IH WriteReturned). by destruct (Write_run sched WriteReturned).
  - destruct (Chan.is_closed _ _); [|apply IH].
    specialize (IH WriteReturned). by destruct (Write_run sched WriteReturned).
  - rewrite Ht. apply IH.
Qed.

(** X10.  [Write] never puts an event aside: with no worker receiving
    nothing is enqueued, and an event whose turn it is stays where it is,
    the call blocked on it, for as long as the context is not done and
    the reset channel read on entry is open. *)
Theorem Write_blocks_without_receiver sched c ev rest :
  Forall (λ t, wt_receiver t = false) sched →
  enqueued (Write_run sched (WriteSelect c ev rest)).2 = [] ∧
  (Forall (λ t, wt_ctx_done t = false
                ∧ Chan.is_closed c (chans (wt_state t)) = false) sched →
   Write_run sched (WriteSelect c ev rest) = (WriteSelect c ev rest, [])).
Proof.
  intros F. split; [by apply Write_run_no_receiver|].
  intros G. induction F as [|t sched Ht F IH]; [done|].
  apply Forall_cons in G as [[Hd Hc] G]. simpl.
  rewrite Hd, Hc, Ht. destruct (wt_pick t); by apply IH.
Qed.

Lemma Write_blocks_without_receiver_witness :
  Forall (λ t, wt_receiver t = false) [sample_idle_turn; sample_idle_turn] ∧
  Write_run [sample_idle_turn; sample_idle_turn]
    (WriteSelect 0 sample_event [sample_event])
  = (WriteSelect 0 sample_event [sample_event], []).
Proof.
  assert (Forall (λ t, wt_receiver t = false) [sample_idle_turn; sample_idle_turn])
    as H by (repeat constructor).
  split; [exact H|].
  apply (proj2 (Write_blocks_without_receiver _ 0 sample_event [sample_event] H)).
  repeat constructor.
Defined.

(** X11.  A worker does nothing after it has returned: in every trace of
    a worker the label of its termination, when there is one, is the last
    one, so no point is written after it. *)
Theorem worker_silent_after_termination sched l1 h l2 :
  (worker sched).2 = l1 ++ Terminated h :: l2 → l2 = [].
Proof.
  intros El. pose proof (worker_run_accepts sched (WorkerStart true)) as A.
  unfold worker in El. rewrite El, accepts_app in A. simpl in A.
  destruct (accepts Fresh l1) as [p1|]; simpl in A; [|discriminate].
  destruct p1 as [|h1| | |]; simpl in A; try discriminate.
  destruct (Nat.eqb h1 h); simpl in A; [|discriminate].
  destruct l2 as [|x l2]; [done|]. destruct x; simpl in A; discriminate.
Qed.

End BlockingFacts.

Lemma worker_silent_after_termination_witness :
  (worker [ {| wk_state := sample_up; wk_env := sample_env; wk_pick := WorkerEvent |};
            sample_cancelled_turn; sample_cancelled_turn ]).2
  = [Acquired 7 "" ""] ++ Terminated 7 :: [] ∧
  ([] : list worker_label) = [].
Proof.
  split; [reflexivity|].
  symmetry.
  exact (worker_silent_after_termination
           [ {| wk_state := sample_up; wk_env := sample_env; wk_pick := WorkerEvent |};
             sample_cancelled_turn; sample_cancelled_turn ]
           [Acquired 7 "" ""] 7 [] eq_refl).
Defined.

(** ** From Write to the writer *)

Section HandoffFacts.

Implicit Types (σ : state) (wpc : write_pc) (kpc : worker_pc).





Lemma joint_run_handoff σ sched c0 ev rest writer c :
  joint_run (Handoff σ :: sched) (WriteSelect c0 ev rest) (WorkerSelect writer c)
  = ((joint_run sched (range_events σ rest)
        (WorkerSelect writer (reset (out σ)))).1.1.1,
     Enqueued ev :: (joint_run sched (range_events σ rest)
                       (WorkerSelect writer (reset (out σ)))).1.1.2,
     (joint_run sched (range_events σ rest)
        (WorkerSelect writer (reset (out σ)))).1.2,
     WritePoint writer (point_of ev)
       :: (joint_run sched (range_events σ rest)
             (WorkerSelect writer (reset (out σ)))).2).
Proof.
  cbn [joint_run joint_step Write_select worker_step handoff_env we_event].
  by destruct (joint_run sched _ _) as [[[? ?] ?] ?].
Qed.

(** X13.  While the worker stays in its [select] and takes what is
    offered, a call of [Write] delivers its whole batch: after as many
    hand-overs as there are events the call has returned, every event has
    been enqueued and written as its point, each once and in order, and
    the worker is back in its [select] with the same writer. *)
Theorem healthy_delivery σs events σ0 writer c :
  length σs = length events →
  ∃ c',
    joint_run (Handoff <$> σs) (range_events σ0 events) (WorkerSelect writer c)
    = (WriteReturned, Enqueued <$> events,
       WorkerSelect writer c', WritePoint writer <$> (point_of <$> events)).
Proof.
  revert σs σ0 c. induction events as [|ev events IH]; intros σs σ0 c Hl.
  - destruct σs; [|done]. by exists c.
  - destruct σs as [|σ σs]; [done|]. simpl in Hl.
    destruct (IH σs σ (reset (out σ)) ltac:(lia)) as (c' & E).
    exists c'. rewrite fmap_cons.
    change (range_events σ0 (ev :: events))
      with (WriteSelect (reset (out σ0)) ev events).
    by rewrite joint_run_handoff, E.
Qed.

End HandoffFacts.

Lemma healthy_delivery_witness :
  length [sample_up; sample_mid] = length [sample_event; sample_event] ∧
  ∃ c',
    joint_run (Handoff <$> [sample_up; sample_mid])
      (range_events sample_up [sample_event; sample_event]) (WorkerSelect 7 0)
    = (WriteReturned, Enqueued <$> [sample_event; sample_event],
       WorkerSelect 7 c',
       WritePoint 7 <$> (point_of <$> [sample_event; sample_event])).
Proof.
  split; [reflexivity|].
  exact (healthy_delivery [sample_up; sample_mid] [sample_event; sample_event]
           sample_up 7 0 eq_refl).
Defined.

(** ** The failure signal during start-up *)

Section StartupFacts.

Implicit Types (σ : state) (c : Config).

Lemma CRCLIENT_keeps_reset probes iopts σ :
  wf σ → wasup (out σ) = false →
  reset (out (CRCLIENT probes iopts σ).1.1) = reset (out σ) ∧
  Chan.fired Chan.Reset (chans (CRCLIENT probes iopts σ).1.1)
  = Chan.fired Chan.Reset (chans σ) ∧
  Chan.is_closed (reset (out σ)) (chans (CRCLIENT probes iopts σ).1.1) = false ∧
  (CRCLIENT probes iopts σ).2 ≠ InitPanicked.
Proof.
  revert σ. induction probes as [|o probes IH]; intros σ W Hw.
  - simpl. destruct W as (Ar & _). unfold Chan.is_closed. by rewrite Ar.
  - simpl. set (cl := NewClientWithOptions _ _ _).
    assert (wf (on_out (set_client cl) σ)) as W1 by (by apply wf_on_out).
    pose proof W as (Ar & As & _).
    assert (reset (out σ) < length (chans σ)) as Lr by (by eapply lookup_lt_Some).
    destruct (succeeded o) eqn:Ho.
    + destruct (health_success _ o W1 Ho) as (σ2 & E & _ & _ & Hr & Hs & Hc).
      rewrite E. simpl in *. rewrite Hr, Hc. split_and!; try done.
      * rewrite fired_app, (fired_shut _ _ _ _ As eq_refl). simpl.
        unfold Chan.fired. simpl. lia.
      * unfold Chan.is_closed.
        rewrite lookup_app_l by (by rewrite length_insert).
        rewrite list_lookup_insert_ne by (by apply not_eq_sym, armed_distinct).
        by rewrite Ar.
    + destruct (health_failure _ o W1 Ho) as (σ2 & e & E & W2 & Hw2 & Hs & Hr & Hc).
      rewrite E. simpl in *. rewrite Hw in *.
      destruct (IH σ2 W2 Hw2) as (IH1 & IH2 & IH3 & IH4).
      destruct (CRCLIENT probes iopts σ2) as [[σ3 tr] st]. simpl in *.
      rewrite Hr, Hc in *. by split_and!.
Qed.

(** X14.  Starting up never fires the failure signal: on an output that
    has not been up yet, however many probes fail before one succeeds,
    [Init] leaves the reset channel the one it was, open, and does not
    panic. *)
Theorem Init_never_fires_reset c probes σ :
  wf σ → wasup (out σ) = false →
  reset (out (Init (c, None) probes σ).1.1) = reset (out σ) ∧
  Chan.fired Chan.Reset (chans (Init (c, None) probes σ).1.1)
  = Chan.fired Chan.Reset (chans σ) ∧
  Chan.is_closed (reset (out σ)) (chans (Init (c, None) probes σ).1.1) = false ∧
  (Init (c, None) probes σ).2 ≠ InitPanicked.
Proof.
  intros W Hw. unfold Init. simpl.
  apply (CRCLIENT_keeps_reset probes _
           (on_out (set_Cfg (withDefaults c)) (on_out (set_Cfg c) σ))); [|done].
  by apply wf_on_out; [..|apply wf_on_out].
Qed.

Lemma Init_never_fires_reset_witness :
  wf newOutput ∧ wasup (out newOutput) = false ∧
  Chan.fired Chan.Reset
    (chans (Init (zeroConfig, None)
              [ProbeFailed "refused"; Report (Some "bad"); NoReport] newOutput).1.1)
  = Chan.fired Chan.Reset (chans newOutput).
Proof.
  split; [exact wf_newOutput|]. split; [reflexivity|].
  exact (proj1 (proj2 (Init_never_fires_reset zeroConfig
                         [ProbeFailed "refused"; Report (Some "bad"); NoReport]
                         newOutput wf_newOutput eq_refl))).
Defined.

End StartupFacts.
